(** * cfit: the expression composer [Pdf] and the three-body decay density
    [Decay3Body]

    A shallow embedding of the implementation of [Pdf] (append, compound
    assignment, evaluate, commonVars) and of [src/models/decay3body.cc]
    (cache, evaluate, multiplication by a function, generate), followed by
    the properties of both. *)

From Stdlib Require Import Ascii QArith.
From stdpp Require Import gmap strings list fin_maps sorting.

Set Default Proof Using "Type".

(** ** std::string ordering

    [std::map< std::string, T >] iterates in increasing key order and the
    algorithms [std::set_intersection] / [std::set_union] compare with
    [operator<] of [std::string], the lexicographic order on characters. *)

Definition name_lt (a b : string) : Prop := String.ltb a b = true.
Definition name_le (a b : string) : Prop := String.leb a b = true.

#[global] Instance name_lt_dec a b : Decision (name_lt a b).
Proof. unfold name_lt. apply _. Defined.
#[global] Instance name_le_dec a b : Decision (name_le a b).
Proof. unfold name_le. apply _. Defined.

(** ** std::map< std::string, T >

    The contents of a map are a [gmap string T]; what the code observes
    through iterators is the sequence of entries in increasing key order. *)

Section std_map.
Context {T : Type}.

(** Keys in iteration order ([begin()] to [end()]). *)
Definition keys (m : gmap string T) : list string :=
  merge_sort name_le (elements (dom m)).

(** Entries in iteration order. *)
Definition entries (m : gmap string T) : list (string * T) :=
  omap (fun k => pair k <$> m !! k) (keys m).

(** The mapped values in iteration order ([it->second]). *)
Definition values (m : gmap string T) : list T := (entries m).*2.

(** [m.insert( first, last )]: every element of the range is inserted
    unless its key is already present. *)
Definition insert_range (m : gmap string T) (r : list (string * T))
  : gmap string T :=
  foldl (fun acc kv => match acc !! kv.1 with
                       | Some _ => acc
                       | None => <[kv.1 := kv.2]> acc
                       end) m r.

(** [m.count( k )] as a test. *)
Definition count (m : gmap string T) (k : string) : bool :=
  bool_decide (is_Some (m !! k)).

(** [m[ k ] = v]. *)
Definition assign (m : gmap string T) (k : string) (v : T) : gmap string T :=
  <[k := v]> m.
End std_map.

(** ** std::set_intersection and std::set_union on vectors of names

    Both walk the two ranges from the front, comparing the heads with [<];
    the inputs are meant to be sorted but nothing checks it. *)

Fixpoint set_intersection (x : list string) : list string -> list string :=
  fix go (y : list string) : list string :=
    match x, y with
    | a :: x', b :: y' =>
        if decide (name_lt a b) then set_intersection x' y
        else if decide (name_lt b a) then go y'
        else a :: set_intersection x' y'
    | _, _ => []
    end.

Fixpoint set_union (x : list string) : list string -> list string :=
  fix go (y : list string) : list string :=
    match x, y with
    | a :: x', b :: y' =>
        if decide (name_lt a b) then a :: set_union x' y
        else if decide (name_lt b a) then b :: go y'
        else a :: set_union x' y'
    | [], _ => y
    | _, [] => x
    end.


(** ** double

    The code computes on [double]. The embedding is parametric in the
    implementation of the arithmetic: only the operations the sources apply
    are required, and every general statement below holds for any
    implementation of them (IEEE binary64 included). *)

Class Double (D : Type) : Type := {
  d_of_int : Z -> D;            (* conversion of an [int], integral literals *)
  d_half : D;                   (* the literal [0.5] *)
  d_add : D -> D -> D;
  d_sub : D -> D -> D;
  d_mul : D -> D -> D;
  d_div : D -> D -> D;
  d_neg : D -> D;
  d_ltb : D -> D -> bool;       (* [x < y] *)
  d_pow : D -> D -> D;          (* [std::pow] *)
  d_exp : D -> D;
  d_log : D -> D;
  d_sin : D -> D;
  d_cos : D -> D;
  d_tan : D -> D
}.

Section numbers.
Context `{Double D}.

Definition d_zero : D := d_of_int 0.
Definition d_one : D := d_of_int 1.

(** [std::max( a, b )] is [( a < b ) ? b : a]. *)
Definition std_max (a b : D) : D := if d_ltb a b then b else a.

(** [std::norm] of a [std::complex< double >]: the squared modulus. *)
Definition std_norm (z : D * D) : D := d_add (d_mul z.1 z.1) (d_mul z.2 z.2).
End numbers.

(** *** Exact arithmetic

    The instance used to run the code on concrete inputs: a value is either
    an exactly known rational (kept in lowest terms) or [None], which stands
    for every result that is not one (a quotient by zero, an irrational
    value of a transcendental function). Comparisons with [None] are false. *)

Definition exact : Type := option Q.

Definition exact_op2 (f : Q -> Q -> Q) (x y : exact) : exact :=
  match x, y with
  | Some a, Some b => Some (Qred (f a b))
  | _, _ => None
  end.

Definition exact_div (x y : exact) : exact :=
  match x, y with
  | Some a, Some b => if Qeq_bool b 0 then None else Some (Qred (a / b))
  | _, _ => None
  end.

Definition exact_ltb (x y : exact) : bool :=
  match x, y with
  | Some a, Some b => negb (Qle_bool b a)
  | _, _ => false
  end.

Definition exact_pow (x y : exact) : exact :=
  match x, y with
  | Some a, Some b =>
      let b' := Qred b in
      if Pos.eqb (Qden b') 1 then
        if Z.ltb (Qnum b') 0 && Qeq_bool a 0 then None
        else Some (Qred (Qpower a (Qnum b')))
      else None
  | _, _ => None
  end.

(** A transcendental function is known exactly at one rational point. *)
Definition exact_at (x0 y0 : Q) (x : exact) : exact :=
  match x with
  | Some a => if Qeq_bool a x0 then Some y0 else None
  | None => None
  end.

#[global] Instance exact_double : Double exact := {|
  d_of_int z := Some (inject_Z z);
  d_half := Some (1 # 2);
  d_add := exact_op2 Qplus;
  d_sub := exact_op2 Qminus;
  d_mul := exact_op2 Qmult;
  d_div := exact_div;
  d_neg x := match x with Some a => Some (Qred (- a)) | None => None end;
  d_ltb := exact_ltb;
  d_pow := exact_pow;
  d_exp := exact_at 0 1;
  d_log := exact_at 1 0;
  d_sin := exact_at 0 0;
  d_cos := exact_at 0 1;
  d_tan := exact_at 0 0
|}.

(** An exactly known value that is at least, or more than, zero. *)
Definition nonnegative (x : exact) : Prop := exists a, x = Some a /\ (0 <= a)%Q.
Definition positive (x : exact) : Prop := exists a, x = Some a /\ (0 < a)%Q.

(** ** Exceptions and outcomes

    Every failure of the library is a [PdfException] carrying a message.
    An operation of the code returns, throws, or leaves defined behaviour
    (an iterator advanced past its end, [find] dereferenced at [end()], a
    dangling model handle). *)

Module Operation.
Inductive Op : Type :=
| plus | minus | mult | div | pow | exp | log | sin | cos | tan.

#[global] Instance Op_eq_dec : EqDecision Op.
Proof. solve_decision. Defined.
End Operation.

Inductive PdfException : Type :=
| PdfError (what : string)
  (* the message built around [Operation::tostring( oper )] *)
| PdfOperError (what : string) (oper : Operation.Op).

Definition ArgumentCountMismatch : PdfException :=
  PdfError "Number of arguments passed does not match number of required arguments.".
Definition IncompatibleVariablesError : PdfException :=
  PdfError "Cannot add two pdfs that do not depend on the same variables.".
Definition OverlappingVariablesError : PdfException :=
  PdfError "Cannot multiply two pdfs that depend on some common variable.".
Definition DependencyError : PdfException :=
  PdfError "Cannot multiply a Decay3Body pdf model by a function that depends on other variables.".
Definition Decay3BodyArity : PdfException :=
  PdfError "Decay3Body can only take either 2 or 3 arguments.".
Definition StackUnderflowError : PdfException :=
  PdfError "Parse error: not enough values in the stack.".
Definition MalformedExpressionError : PdfException :=
  PdfError "Parse error: too many values have been supplied.".
Definition UnknownBinaryOperatorError (oper : Operation.Op) : PdfException :=
  PdfOperError "Parse error: unknown binary operation " oper.
Definition UnknownUnaryOperatorError (oper : Operation.Op) : PdfException :=
  PdfOperError "Parse error: unknown unary operation " oper.
Definition UnknownOperationError (ch : Ascii.ascii) : PdfException :=
  PdfError ("Parse error: unknown operation " +:+ String ch ".").
Definition ConvolutionUnderflowError : PdfException :=
  PdfError "Parse error computing convolution: not enough values in the stack.".
Definition ConvolutionMalformedError : PdfException :=
  PdfError "Parse error computing convolution: too many values have been supplied.".

Inductive outcome (A : Type) : Type :=
| Returned (a : A)
| Thrown (e : PdfException)
| Undefined.
Arguments Returned {A} a.
Arguments Thrown {A} e.
Arguments Undefined {A}.

#[global] Instance outcome_ret : MRet outcome := fun A a => Returned a.
#[global] Instance outcome_bind : MBind outcome := fun A B f m =>
  match m with
  | Returned a => f a
  | Thrown e => Thrown e
  | Undefined => Undefined
  end.

(** A member function that mutates its object: the object after the call,
    whether the call returned or threw, and the outcome. *)
Definition M (S A : Type) : Type := S -> S * outcome A.

Definition ret {S A} (a : A) : M S A := fun s => (s, Returned a).
Definition throw {S A} (e : PdfException) : M S A := fun s => (s, Thrown e).
Definition undefined {S A} : M S A := fun s => (s, Undefined).
Definition get {S} : M S S := fun s => (s, Returned s).
Definition modify {S} (f : S -> S) : M S unit := fun s => (f s, Returned tt).
Definition bind {S A B} (m : M S A) (k : A -> M S B) : M S B := fun s =>
  match m s with
  | (s', Returned a) => k a s'
  | (s', Thrown e) => (s', Thrown e)
  | (s', Undefined) => (s', Undefined)
  end.

Notation "'do' x <- m ; k" := (bind m (fun x => k))
  (at level 10, x name, m at level 100, k at level 200).
Notation "m ;; k" := (bind m (fun _ => k))
  (at level 100, k at level 200, right associativity).

(** [for ( it = begin; it != end; ++it ) body( *it )]. *)
Fixpoint for_each {S A} (l : list A) (body : A -> M S unit) : M S unit :=
  match l with
  | [] => ret tt
  | x :: l' => body x ;; for_each l' body
  end.

(** [m] keeps the property [I] of the object, however it ends. *)
Definition preserves {S A} (I : S -> Prop) (m : M S A) : Prop :=
  forall s, I s -> I (m s).1.

(** ** Variables and parameters *)

Section registry.
Context {D : Type}.

Record CfitVariable : Type := mkVariable {
  v_name : string; v_value : D; v_error : D }.

Record CfitParameter : Type := mkParameter {
  p_name : string; p_value : D; p_error : D }.

(** A map is keyed by name when every entry sits under its own name. *)
Definition keyed_by {T} (name : T -> string) (m : gmap string T) : Prop :=
  forall k v, m !! k = Some v -> name v = k.
End registry.
Arguments CfitVariable D : clear implicits.
Arguments CfitParameter D : clear implicits.

(** ** Collaborators of the decay density

    The phase-space geometry, the amplitude, the auxiliary functions and the
    random source are consumed through the member functions the code calls;
    each is a record of exactly those. *)

Module PhaseSpace.
Record t {D : Type} : Type := mk {
  mSq12min : D; mSq12max : D;
  mSqMin : nat -> D; mSqMax : nat -> D;
  mSqSum : D;
  m1 : D; m2 : D; m3 : D; mMother : D;
  mSq1 : D; mSq2 : D; mSq3 : D; mSqMother : D;
  contains : D -> D -> D -> bool }.
Arguments t D : clear implicits.
Arguments mk {D}.
End PhaseSpace.

Module Amplitude.
(** [evaluate( ps, mSq12, mSq13, mSq23 )] returns a complex number, here its
    real and imaginary parts. *)
Record t {D : Type} : Type := mk {
  evaluate : PhaseSpace.t D -> D -> D -> D -> D * D }.
Arguments t D : clear implicits.
Arguments mk {D}.
End Amplitude.

Module Function.
Record t {D : Type} : Type := mk {
  _varMap : gmap string (CfitVariable D);
  _parMap : gmap string (CfitParameter D);
  dependsOn : string -> bool;
  evaluate : gmap string D -> D }.
Arguments t D : clear implicits.
Arguments mk {D}.
End Function.

(** [Random::flat( min, max )] draws from a source of type [R] and leaves
    the source advanced. *)
Class RandomSource (D R : Type) : Type := {
  flat : R -> D -> D -> D * R }.

(** ** Decay3Body *)

Module Decay3Body.
Section defs.
Context `{Double D}.

Record t : Type := mk {
  _varMap : gmap string (CfitVariable D);
  _parMap : gmap string (CfitParameter D);
  getVar : nat -> CfitVariable D;
  _amp : Amplitude.t D;
  _ps : PhaseSpace.t D;
  _norm : D;
  _maxPdf : D;
  _funcs : list (Function.t D) }.

Definition set_norm (n : D) (d : t) : t :=
  mk (_varMap d) (_parMap d) (getVar d) (_amp d) (_ps d) n (_maxPdf d) (_funcs d).
Definition set_parMap (pm : gmap string (CfitParameter D)) (d : t) : t :=
  mk (_varMap d) pm (getVar d) (_amp d) (_ps d) (_norm d) (_maxPdf d) (_funcs d).
Definition set_funcs (fs : list (Function.t D)) (d : t) : t :=
  mk (_varMap d) (_parMap d) (getVar d) (_amp d) (_ps d) (_norm d) (_maxPdf d) fs.

(** One pass of the loop of [evaluateFuncs]: [varMap] is declared outside
    the loop and keeps the entries set for the functions before. *)
Definition evaluateFuncs_body (name12 name13 name23 : string)
    (mSq12 mSq13 mSq23 : D) (acc : D * gmap string D) (func : Function.t D)
  : D * gmap string D :=
  let varMap := acc.2 in
  let varMap := if Function.dependsOn func name12
                then assign varMap name12 mSq12 else varMap in
  let varMap := if Function.dependsOn func name13
                then assign varMap name13 mSq13 else varMap in
  let varMap := if Function.dependsOn func name23
                then assign varMap name23 mSq23 else varMap in
  (d_mul acc.1 (Function.evaluate func varMap), varMap).

Definition evaluateFuncs (d : t) (mSq12 mSq13 mSq23 : D) : D :=
  let name12 := v_name (getVar d 0) in
  let name13 := v_name (getVar d 1) in
  let name23 := v_name (getVar d 2) in
  let value := (foldl (evaluateFuncs_body name12 name13 name23 mSq12 mSq13 mSq23)
                      (d_one, ∅) (_funcs d)).1 in
  (* Always return a non-negative value. Default to zero. *)
  std_max value d_zero.

(** The integrand of the normalization at one point. *)
Definition density (d : t) (mSq12 mSq13 mSq23 : D) : D :=
  d_mul (std_norm (Amplitude.evaluate (_amp d) (_ps d) mSq12 mSq13 mSq23))
        (evaluateFuncs d mSq12 mSq13 mSq23).

Definition nBins : Z := 400.

(** The body of the two nested loops of [cache], for one [( binX, binY )]. *)
Definition cache_bin (d : t) (min step mSqSum : D) (binX binY : Z) (norm : D) : D :=
  let mSq12 := d_add min (d_mul step (d_add (d_of_int binX) d_half)) in
  let mSq13 := d_add min (d_mul step (d_add (d_of_int binY) d_half)) in
  let mSq23 := d_sub (d_sub mSqSum mSq12) mSq13 in
  if PhaseSpace.contains (_ps d) mSq12 mSq13 mSq23
  then d_add norm (density d mSq12 mSq13 mSq23)
  else norm.

Definition cache_sum (d : t) (min step mSqSum : D) : D :=
  foldl (fun norm binX =>
           foldl (fun norm binY => cache_bin d min step mSqSum binX binY norm)
                 norm (seqZ 0 nBins))
        d_zero (seqZ 0 nBins).

Definition cache : M t unit := fun d =>
  let min := PhaseSpace.mSq12min (_ps d) in
  let max := PhaseSpace.mSq12max (_ps d) in
  let step := d_div (d_sub max min) (d_of_int nBins) in
  let mSqSum := PhaseSpace.mSqSum (_ps d) in
  let norm := cache_sum d min step mSqSum in
  (set_norm (d_mul norm (d_pow step (d_of_int 2))) d, Returned tt).

(** The normalization as the specification words it, to compare [cache]
    with: the midpoint rule on the bounding rectangle of (m12, m13), each
    axis with its own bounds ([mSqMin( 1 )] and [mSqMax( 1 )] are those of
    m13), the accepted bin centers contributing the density, the sum
    multiplied by the bin area. *)
Definition specified_bin (d : t) (min12 step12 min13 step13 mSqSum : D)
    (binX binY : Z) (sum : D) : D :=
  let mSq12 := d_add min12 (d_mul step12 (d_add (d_of_int binX) d_half)) in
  let mSq13 := d_add min13 (d_mul step13 (d_add (d_of_int binY) d_half)) in
  let mSq23 := d_sub (d_sub mSqSum mSq12) mSq13 in
  if PhaseSpace.contains (_ps d) mSq12 mSq13 mSq23
  then d_add sum (density d mSq12 mSq13 mSq23)
  else sum.

Definition specified_sum (d : t) (min12 step12 min13 step13 mSqSum : D) : D :=
  foldl (fun sum binX =>
           foldl (fun sum binY =>
                    specified_bin d min12 step12 min13 step13 mSqSum binX binY sum)
                 sum (seqZ 0 nBins))
        d_zero (seqZ 0 nBins).

Definition specified_norm (d : t) : D :=
  let min12 := PhaseSpace.mSq12min (_ps d) in
  let max12 := PhaseSpace.mSq12max (_ps d) in
  let min13 := PhaseSpace.mSqMin (_ps d) 1 in
  let max13 := PhaseSpace.mSqMax (_ps d) 1 in
  let step12 := d_div (d_sub max12 min12) (d_of_int nBins) in
  let step13 := d_div (d_sub max13 min13) (d_of_int nBins) in
  let mSqSum := PhaseSpace.mSqSum (_ps d) in
  d_mul (specified_sum d min12 step12 min13 step13 mSqSum) (d_mul step12 step13).

(** The constructor, given what the base-class constructors have set up:
    [_norm( 1.0 ), _maxPdf( 14.0 )], then [cache()]. *)
Definition construct (varMap : gmap string (CfitVariable D))
    (parMap : gmap string (CfitParameter D)) (getVar : nat -> CfitVariable D)
    (amp : Amplitude.t D) (ps : PhaseSpace.t D) : t :=
  (cache (mk varMap parMap getVar amp ps d_one (d_of_int 14) [])).1.

Definition evaluate3 (d : t) (mSq12 mSq13 mSq23 : D) : D :=
  let amp := Amplitude.evaluate (_amp d) (_ps d) mSq12 mSq13 mSq23 in
  d_div (d_mul (std_norm amp) (evaluateFuncs d mSq12 mSq13 mSq23)) (_norm d).

Definition evaluate2 (d : t) (mSq12 mSq13 : D) : D :=
  let mSq23 := d_sub (d_sub (PhaseSpace.mSqSum (_ps d)) mSq12) mSq13 in
  let amp := Amplitude.evaluate (_amp d) (_ps d) mSq12 mSq13 mSq23 in
  d_div (d_mul (std_norm amp) (evaluateFuncs d mSq12 mSq13 mSq23)) (_norm d).

(** [evaluate( const std::vector< double >& vars )]. *)
Definition evaluate (d : t) (vars : list D) : outcome D :=
  match vars with
  | [v0; v1] => Returned (evaluate2 d v0 v1)
  | [v0; v1; v2] => Returned (evaluate3 d v0 v1 v2)
  | _ => Thrown Decay3BodyArity
  end.

(** The guard shared by [operator*=] and the two free [operator*]: every
    variable of the function must be one of the model. *)
Definition check_depends (right : Function.t D) : M t unit :=
  for_each (values (Function._varMap right)) (fun var =>
    do d <- get;
    if count (_varMap d) (v_name var) then ret tt else throw DependencyError).

Definition mul_assign (right : Function.t D) : M t unit :=
  check_depends right ;;
  (* Consider the function parameters as own ones. *)
  modify (fun d => set_parMap
            (insert_range (_parMap d) (entries (Function._parMap right))) d) ;;
  (* Append the function to the functions vector. *)
  modify (fun d => set_funcs (_funcs d ++ [right]) d) ;;
  (* Recompute the norm, since the pdf shape has changed under this operation. *)
  cache.

(** [operator*( Decay3Body left, const Function& right )] and its mirror
    image run the same statements on their by-value copy and return it. *)
Definition mul (left : t) (right : Function.t D) : outcome t :=
  match mul_assign right left with
  | (left', Returned _) => Returned left'
  | (_, Thrown e) => Thrown e
  | (_, Undefined) => Undefined
  end.

Section generate.
Context `{RandomSource D R}.

(** What [generate] leaves behind besides its result: the random source and
    the lines written to [std::cout]. *)
Record world : Type := mkWorld {
  random : R;
  cout : list (D * D * D * D) }.

(** [while ( count-- )] with [count] attempts left. *)
Fixpoint generate_loop (d : t) (min12 max12 min13 max13 mSqSum : D)
    (name12 name13 name23 : string) (count : nat)
    (values : gmap string D) (w : world) : gmap string D * world :=
  match count with
  | O =>
      let values := assign values name12 d_zero in
      let values := assign values name13 d_zero in
      let values := assign values name23 d_zero in
      (values, w)
  | S count' =>
      let '(mSq12, r) := flat (random w) min12 max12 in
      let '(mSq13, r) := flat r min13 max13 in
      let mSq23 := d_sub (d_sub mSqSum mSq12) mSq13 in
      let values := assign values name12 mSq12 in
      let values := assign values name13 mSq13 in
      let values := assign values name23 mSq23 in
      let pdfVal := evaluate3 d mSq12 mSq13 mSq23 in
      let out := if d_ltb (_maxPdf d) pdfVal
                 then cout w ++ [(pdfVal, mSq12, mSq13,
                                  d_sub (d_sub mSqSum mSq12) mSq13)]
                 else cout w in
      (* Apply the accept-reject decision. *)
      let '(u, r) := flat r d_zero (_maxPdf d) in
      if d_ltb u pdfVal then (values, mkWorld r out)
      else generate_loop d min12 max12 min13 max13 mSqSum
             name12 name13 name23 count' values (mkWorld r out)
  end.

Definition attempts : nat := Z.to_nat 10000.

Definition generate (d : t) (w : world) : gmap string D * world :=
  let ps := _ps d in
  let two := d_of_int 2 in
  let min12 := d_pow (d_add (PhaseSpace.m1 ps) (PhaseSpace.m2 ps)) two in
  let min13 := d_pow (d_add (PhaseSpace.m1 ps) (PhaseSpace.m3 ps)) two in
  let max12 := d_pow (d_sub (PhaseSpace.mMother ps) (PhaseSpace.m3 ps)) two in
  let max13 := d_pow (d_sub (PhaseSpace.mMother ps) (PhaseSpace.m2 ps)) two in
  let mSqSum := d_add (d_add (d_add (PhaseSpace.mSqMother ps) (PhaseSpace.mSq1 ps))
                             (PhaseSpace.mSq2 ps)) (PhaseSpace.mSq3 ps) in
  generate_loop d min12 max12 min13 max13 mSqSum
    (v_name (getVar d 0)) (v_name (getVar d 1)) (v_name (getVar d 2))
    attempts ∅ w.
End generate.

End defs.
Arguments t D : clear implicits.
Arguments world D R : clear implicits.
End Decay3Body.

(** ** PdfModel: the capability of a primitive density

    A composite refers to its models through [PdfModel*]; a model is what
    the composite can reach through such a handle: the two registries and
    the virtual [evaluate] functions, which act on the registries as last
    set. *)

Module PdfModel.
Record t {D : Type} : Type := mk {
  _varMap : gmap string (CfitVariable D);
  _parMap : gmap string (CfitParameter D);
  evaluate : gmap string (CfitVariable D) -> gmap string (CfitParameter D) ->
             outcome D;
  evaluate_vars : list D -> outcome D }.
Arguments t D : clear implicits.
Arguments mk {D}.

(** Modelled from the spec: [PdfModel::varNames()] is declared in
    [pdfmodel.hh], which is not among the sources; the spec gives it as the
    sorted unique names of the variables. *)
Definition varNames {D} (m : t D) : list string := keys (_varMap m).
End PdfModel.

Module ParameterExpr.
Record t {D : Type} : Type := mk {
  _pars : list (CfitParameter D);
  _ctnts : list D;
  _opers : list Operation.Op;
  _expression : string }.
Arguments t D : clear implicits.
Arguments mk {D}.
End ParameterExpr.

(** ** Pdf: the expression composer *)

Module Pdf.
Section defs.
Context `{Double D}.

Record t : Type := mk {
  _varMap : gmap string (CfitVariable D);
  _parMap : gmap string (CfitParameter D);
  _pdfs : list nat;                       (* std::vector< PdfModel* > *)
  _pars : list (CfitParameter D);
  _ctnts : list D;
  _opers : list Operation.Op;
  _expression : string }.

(** A default-constructed composite. *)
Definition empty : t := mk ∅ ∅ [] [] [] [] "".

(** Modelled from the spec: [Pdf::varNames()] is declared in [pdf.hh],
    which is not among the sources; the spec gives it as the sorted unique
    names of the variables. *)
Definition varNames (p : t) : list string := keys (_varMap p).

(** Binary operations. *)
Definition operate2 (x y : D) (oper : Operation.Op) : outcome D :=
  if decide (oper = Operation.plus) then Returned (d_add x y)
  else if decide (oper = Operation.minus) then Returned (d_sub x y)
  else if decide (oper = Operation.mult) then Returned (d_mul x y)
  else if decide (oper = Operation.div) then Returned (d_div x y)
  else if decide (oper = Operation.pow) then Returned (d_pow x y)
  else Thrown (UnknownBinaryOperatorError oper).

(** Unary operations. *)
Definition operate1 (x : D) (oper : Operation.Op) : outcome D :=
  if decide (oper = Operation.minus) then Returned (d_neg x)
  else if decide (oper = Operation.exp) then Returned (d_exp x)
  else if decide (oper = Operation.log) then Returned (d_log x)
  else if decide (oper = Operation.sin) then Returned (d_sin x)
  else if decide (oper = Operation.cos) then Returned (d_cos x)
  else if decide (oper = Operation.tan) then Returned (d_tan x)
  else Thrown (UnknownUnaryOperatorError oper).

(** *** Appending *)

(** Append a parameter. *)
Definition append_par (par : CfitParameter D) : M t unit :=
  modify (fun p => mk (_varMap p) (assign (_parMap p) (p_name par) par)
                      (_pdfs p) (_pars p ++ [par]) (_ctnts p) (_opers p)
                      (_expression p +:+ "p")).

(** Append a parameter expression. *)
Definition append_expr (expr : ParameterExpr.t D) : M t unit :=
  modify (fun p =>
    mk (_varMap p)
       (foldl (fun pm par => assign pm (p_name par) par) (_parMap p)
              (ParameterExpr._pars expr))
       (_pdfs p)
       (_pars p ++ ParameterExpr._pars expr)
       (_ctnts p ++ ParameterExpr._ctnts expr)
       (_opers p ++ ParameterExpr._opers expr)
       (_expression p +:+ ParameterExpr._expression expr)).

(** Append a constant. *)
Definition append_ctnt (ctnt : D) : M t unit :=
  modify (fun p => mk (_varMap p) (_parMap p) (_pdfs p) (_pars p)
                      (_ctnts p ++ [ctnt]) (_opers p) (_expression p +:+ "c")).

(** Append a binary operation. No unary operation should ever be appended. *)
Definition append_oper (oper : Operation.Op) : M t unit :=
  modify (fun p => mk (_varMap p) (_parMap p) (_pdfs p) (_pars p)
                      (_ctnts p) (_opers p ++ [oper]) (_expression p +:+ "b")).

(** Append a pdf expression. *)
Definition append_pdf (pdf : t) : M t unit :=
  modify (fun p =>
    mk (insert_range (_varMap p) (entries (_varMap pdf)))
       (insert_range (_parMap p) (entries (_parMap pdf)))
       (_pdfs p ++ _pdfs pdf)
       (_pars p ++ _pars pdf)
       (_ctnts p ++ _ctnts pdf)
       (_opers p ++ _opers pdf)
       (_expression p +:+ _expression pdf)).

(** Assignment operations with a parameter, a parameter expression and a
    constant. *)
Definition mul_assign_par (right : CfitParameter D) : M t unit :=
  append_par right ;; append_oper Operation.mult.
Definition div_assign_par (right : CfitParameter D) : M t unit :=
  append_par right ;; append_oper Operation.div.
Definition mul_assign_expr (right : ParameterExpr.t D) : M t unit :=
  append_expr right ;; append_oper Operation.mult.
Definition div_assign_expr (right : ParameterExpr.t D) : M t unit :=
  append_expr right ;; append_oper Operation.div.
Definition mul_assign_ctnt (right : D) : M t unit :=
  append_ctnt right ;; append_oper Operation.mult.
Definition div_assign_ctnt (right : D) : M t unit :=
  append_ctnt right ;; append_oper Operation.div.

(** Assignment operations with a pdf expression. *)
Definition add_assign_pdf (right : t) : M t unit :=
  do p <- get;
  (* Cannot add two pdfs that do not depend on exactly the same variables. *)
  if decide (varNames p <> varNames right)
  then throw IncompatibleVariablesError
  else append_pdf right ;; append_oper Operation.plus.

Definition mul_assign_pdf (right : t) : M t unit :=
  do p <- get;
  (* Cannot multiply two pdfs that share some variable. *)
  let theseVars := varNames p in
  let rightVars := varNames right in
  let intersect := set_intersection theseVars rightVars in
  if decide (intersect <> [])
  then throw OverlappingVariablesError
  else append_pdf right ;; append_oper Operation.mult.

(** *** Operations that go through the model handles

    [h] is the memory the handles of [_pdfs] point into. A [const PdfModel&]
    argument is the address of a model in it. *)
Section with_models.
Context (h : gmap nat (PdfModel.t D)).

(** [*model]: a handle that does not point to a model is not defined. *)
Definition deref {S} (model : nat) : M S (PdfModel.t D) := fun s =>
  match h !! model with
  | Some m => (s, Returned m)
  | None => (s, Undefined)
  end.

(** Append a model. *)
Definition append_model (model : nat) : M t unit :=
  do m <- deref model;
  modify (fun p =>
    mk (insert_range (_varMap p) (entries (PdfModel._varMap m)))
       (insert_range (_parMap p) (entries (PdfModel._parMap m)))
       (_pdfs p ++ [model]) (_pars p) (_ctnts p) (_opers p)
       (_expression p +:+ "m")).

(** Assignment operation. *)
Definition assign_model (right : nat) : M t unit := append_model right.

(** Assignment operations with a pdf model. *)
Definition add_assign_model (right : nat) : M t unit :=
  do m <- deref right;
  do p <- get;
  (* Cannot add two pdfs that do not depend on exactly the same variables. *)
  if decide (varNames p <> PdfModel.varNames m)
  then throw IncompatibleVariablesError
  else append_model right ;; append_oper Operation.plus.

Definition mul_assign_model (right : nat) : M t unit :=
  do m <- deref right;
  do p <- get;
  (* Cannot multiply two pdfs that share some variable. *)
  let theseVars := varNames p in
  let rightVars := PdfModel.varNames m in
  let intersect := set_intersection theseVars rightVars in
  if decide (intersect <> [])
  then throw OverlappingVariablesError
  else append_model right ;; append_oper Operation.mult.

(** *** Evaluation

    The iterators over the four vectors (what is left of each) and the
    stack of values, top first. *)
Record machine : Type := mkMachine {
  it_pdf : list nat;
  it_par : list (CfitParameter D);
  it_ctt : list D;
  it_ops : list Operation.Op;
  stack : list D }.

Definition start (p : t) : machine :=
  mkMachine (_pdfs p) (_pars p) (_ctnts p) (_opers p) [].

(** The iterators of [s] with more elements behind them, as when the
    vectors have been appended to. *)
Definition behind (s : machine) (pdfs : list nat) (pars : list (CfitParameter D))
    (ctts : list D) (opss : list Operation.Op) : machine :=
  mkMachine (it_pdf s ++ pdfs) (it_par s ++ pars)
            (it_ctt s ++ ctts) (it_ops s ++ opss) (stack s).

(** One character of [_expression]. [leaf] is what a model-leaf pushes; it
    is the one place where the loops of [evaluate()] and
    [evaluate( vars )] differ. *)
Definition step (leaf : PdfModel.t D -> outcome D) (p : t)
    (ch : Ascii.ascii) (s : machine) : outcome machine :=
  if decide (ch = "m"%char) then
    match it_pdf s with
    | pdf :: pdfs =>
        match h !! pdf with
        | Some m =>
            v ← leaf m;
            Returned (mkMachine pdfs (it_par s) (it_ctt s) (it_ops s) (v :: stack s))
        | None => Undefined
        end
    | [] => Undefined
    end
  else if decide (ch = "p"%char) then
    match it_par s with
    | par :: pars =>
        match _parMap p !! p_name par with
        | Some q =>
            Returned (mkMachine (it_pdf s) pars (it_ctt s) (it_ops s)
                                (p_value q :: stack s))
        | None => Undefined
        end
    | [] => Undefined
    end
  else if decide (ch = "c"%char) then
    match it_ctt s with
    | ctt :: ctts =>
        Returned (mkMachine (it_pdf s) (it_par s) ctts (it_ops s) (ctt :: stack s))
    | [] => Undefined
    end
  else if decide (ch = "b"%char) then
    match stack s with
    | y :: x :: rest =>
        match it_ops s with
        | oper :: opers =>
            v ← operate2 x y oper;
            Returned (mkMachine (it_pdf s) (it_par s) (it_ctt s) opers (v :: rest))
        | [] => Undefined
        end
    | _ => Thrown StackUnderflowError
    end
  else if decide (ch = "u"%char) then
    match stack s with
    | x :: rest =>
        match it_ops s with
        | oper :: opers =>
            v ← operate1 x oper;
            Returned (mkMachine (it_pdf s) (it_par s) (it_ctt s) opers (v :: rest))
        | [] => Undefined
        end
    | [] => Thrown StackUnderflowError
    end
  else Thrown (UnknownOperationError ch).

Fixpoint run (leaf : PdfModel.t D -> outcome D) (p : t)
    (expr : string) (s : machine) : outcome machine :=
  match expr with
  | EmptyString => Returned s
  | String ch rest => s' ← step leaf p ch s; run leaf p rest s'
  end.

Definition top (s : machine) : outcome D :=
  match stack s with
  | [v] => Returned v
  | _ => Thrown MalformedExpressionError
  end.

(** [evaluate()]. *)
Definition evaluate (p : t) : outcome D :=
  s ← run (fun m => PdfModel.evaluate m (PdfModel._varMap m) (PdfModel._parMap m))
          p (_expression p) (start p);
  top s.

(** The values of the variables of one model, looked up by name in the
    dictionary of the values passed. *)
Fixpoint modelVars (localVars : gmap string D) (vars : list (CfitVariable D))
  : outcome (list D) :=
  match vars with
  | [] => Returned []
  | var :: vars' =>
      match localVars !! v_name var with
      | Some x => xs ← modelVars localVars vars'; Returned (x :: xs)
      | None => Undefined
      end
  end.

(** Dictionary of the variable names with the values passed. *)
Definition localVars (p : t) (vars : list D) : gmap string D :=
  foldl (fun m kv => assign m kv.1 kv.2) ∅ (zip (keys (_varMap p)) vars).

(** [evaluate( vars )]. *)
Definition evaluate_vars (p : t) (vars : list D) : outcome D :=
  if decide (size (_varMap p) <> length vars)
  then Thrown ArgumentCountMismatch
  else
    let lv := localVars p vars in
    s ← run (fun m => mv ← modelVars lv (values (PdfModel._varMap m));
                       PdfModel.evaluate_vars m mv)
            p (_expression p) (start p);
    top s.

(** *** commonVars *)

Record cv_machine : Type := mkCv {
  cv_models : list nat;
  cv_varNames : list string;
  calcs : list (list string) }.

Definition cv_step (ch : Ascii.ascii) (s : cv_machine) : outcome cv_machine :=
  if decide (ch = "m"%char) then
    match cv_models s with
    | model :: models =>
        match h !! model with
        | Some m =>
            let varNames := cv_varNames s ++ keys (PdfModel._varMap m) in
            Returned (mkCv models varNames (varNames :: calcs s))
        | None => Undefined
        end
    | [] => Undefined
    end
  else if decide (ch = "p"%char) then
    Returned (mkCv (cv_models s) (cv_varNames s) ([] :: calcs s))
  else
    match calcs s with
    | x :: y :: rest =>
        let z := if decide (ch = "+"%char) then set_intersection x y
                 else if decide (ch = "*"%char) then set_union x y
                 else [] in
        Returned (mkCv (cv_models s) (cv_varNames s) (z :: rest))
    | _ => Thrown ConvolutionUnderflowError
    end.

Fixpoint cv_run (expr : string) (s : cv_machine) : outcome cv_machine :=
  match expr with
  | EmptyString => Returned s
  | String ch rest => s' ← cv_step ch s; cv_run rest s'
  end.

Definition commonVars (p : t) : outcome (list string) :=
  s ← cv_run (_expression p) (mkCv (_pdfs p) [] []);
  match calcs s with
  | [v] => Returned v
  | _ => Thrown ConvolutionMalformedError
  end.

End with_models.
End defs.
Arguments t D : clear implicits.
Arguments machine D : clear implicits.
End Pdf.

(** ** The public composition interface as data

    One constructor per public append and compound-assignment operation of
    [Pdf]; [exec] dispatches to the member function. *)

Module PdfCall.
Section defs.
Context `{Double D}.

Inductive t : Type :=
| Append_model (model : nat)
| Append_pdf (pdf : Pdf.t D)
| Append_par (par : CfitParameter D)
| Append_expr (expr : ParameterExpr.t D)
| Append_ctnt (ctnt : D)
| Append_oper (oper : Operation.Op)
| Assign_model (right : nat)
| Add_assign_model (right : nat)
| Mul_assign_model (right : nat)
| Add_assign_pdf (right : Pdf.t D)
| Mul_assign_pdf (right : Pdf.t D)
| Mul_assign_par (right : CfitParameter D)
| Div_assign_par (right : CfitParameter D)
| Mul_assign_expr (right : ParameterExpr.t D)
| Div_assign_expr (right : ParameterExpr.t D)
| Mul_assign_ctnt (right : D)
| Div_assign_ctnt (right : D).

Definition exec (h : gmap nat (PdfModel.t D)) (c : t) : M (Pdf.t D) unit :=
  match c with
  | Append_model model => Pdf.append_model h model
  | Append_pdf pdf => Pdf.append_pdf pdf
  | Append_par par => Pdf.append_par par
  | Append_expr expr => Pdf.append_expr expr
  | Append_ctnt ctnt => Pdf.append_ctnt ctnt
  | Append_oper oper => Pdf.append_oper oper
  | Assign_model r => Pdf.assign_model h r
  | Add_assign_model r => Pdf.add_assign_model h r
  | Mul_assign_model r => Pdf.mul_assign_model h r
  | Add_assign_pdf r => Pdf.add_assign_pdf r
  | Mul_assign_pdf r => Pdf.mul_assign_pdf r
  | Mul_assign_par r => Pdf.mul_assign_par r
  | Div_assign_par r => Pdf.div_assign_par r
  | Mul_assign_expr r => Pdf.mul_assign_expr r
  | Div_assign_expr r => Pdf.div_assign_expr r
  | Mul_assign_ctnt r => Pdf.mul_assign_ctnt r
  | Div_assign_ctnt r => Pdf.div_assign_ctnt r
  end.

(** The names declared by every embedded model are keys of the composite's
    own maps. *)
Definition covers (h : gmap nat (PdfModel.t D)) (p : Pdf.t D) : Prop :=
  forall model m, model ∈ Pdf._pdfs p -> h !! model = Some m ->
    dom (PdfModel._varMap m) ⊆ dom (Pdf._varMap p) /\
    dom (PdfModel._parMap m) ⊆ dom (Pdf._parMap p).

(** The same of a composite passed as operand. *)
Definition operand_covers (h : gmap nat (PdfModel.t D)) (c : t) : Prop :=
  match c with
  | Append_pdf pdf | Add_assign_pdf pdf | Mul_assign_pdf pdf => covers h pdf
  | _ => True
  end.
End defs.
Arguments t D : clear implicits.
End PdfCall.

(** ** Concrete inputs

    Run with the exact arithmetic. *)

Module Inputs.

Definition q (z : Z) : exact := Some (inject_Z z).

Definition var (name : string) : CfitVariable exact := mkVariable name (q 0) (q 0).
Definition par (name : string) (value : Z) : CfitParameter exact :=
  mkParameter name (q value) (q 0).

(** A stub density over the variables [names] that always returns [value]. *)
Definition stub (names : list string) (value : Z) : PdfModel.t exact :=
  PdfModel.mk (list_to_map ((fun n => (n, var n)) <$> names)) ∅
              (fun _ _ => Returned (q value)) (fun _ => Returned (q value)).

(** A(x) = 2 at address 0, B(y) = 3 at address 1, C(x) = 5 at address 2. *)
Definition models : gmap nat (PdfModel.t exact) :=
  {[ 0%nat := stub ["x"] 2; 1%nat := stub ["y"] 3; 2%nat := stub ["x"] 5 ]}.

Definition pdf_A : Pdf.t exact := (Pdf.assign_model models 0 Pdf.empty).1.
Definition pdf_B : Pdf.t exact := (Pdf.assign_model models 1 Pdf.empty).1.

(** [Pdf p = A; p *= B]. *)
Definition product_AB : Pdf.t exact := (Pdf.mul_assign_model models 1 pdf_A).1.

(** [Pdf p = A; p += C]. *)
Definition sum_AC : Pdf.t exact := (Pdf.add_assign_model models 2 pdf_A).1.

(** *** Decay densities *)

Definition leb (a b : exact) : bool := negb (d_ltb b a).
Definition within (lo hi x : exact) : bool := leb lo x && leb x hi.
Definition sq (x : exact) : exact := d_mul x x.

(** The geometry of a decay of a mother of mass [mM] into daughters of
    masses [m1], [m2], [m3]: the bounds of each squared invariant mass, and
    as containment test that each of the three lies within its bounds. *)
Definition phase_space (m1 m2 m3 mM : Z) : PhaseSpace.t exact :=
  let lo (i : nat) := match i with
                      | 0%nat => sq (q (m1 + m2))
                      | 1%nat => sq (q (m1 + m3))
                      | _ => sq (q (m2 + m3))
                      end in
  let hi (i : nat) := match i with
                      | 0%nat => sq (q (mM - m3))
                      | 1%nat => sq (q (mM - m2))
                      | _ => sq (q (mM - m1))
                      end in
  PhaseSpace.mk (lo 0%nat) (hi 0%nat) lo hi
    (q (mM * mM + m1 * m1 + m2 * m2 + m3 * m3))
    (q m1) (q m2) (q m3) (q mM)
    (q (m1 * m1)) (q (m2 * m2)) (q (m3 * m3)) (q (mM * mM))
    (fun mSq12 mSq13 mSq23 =>
       within (lo 0%nat) (hi 0%nat) mSq12 &&
       within (lo 1%nat) (hi 1%nat) mSq13 &&
       within (lo 2%nat) (hi 2%nat) mSq23).

(** The amplitude that is 1 everywhere. *)
Definition flat_amplitude : Amplitude.t exact :=
  Amplitude.mk (fun _ _ _ _ => (q 1, q 0)).

Definition decay_vars : gmap string (CfitVariable exact) :=
  list_to_map ((fun n => (n, var n)) <$> ["mSq12"; "mSq13"; "mSq23"]).

Definition decay_getVar (i : nat) : CfitVariable exact :=
  match i with
  | 0%nat => var "mSq12"
  | 1%nat => var "mSq13"
  | _ => var "mSq23"
  end.

(** [Decay3Body( mSq12, mSq13, mSq23, amp, ps )] with one parameter [w] of
    the amplitude registered. *)
Definition decay (ps : PhaseSpace.t exact) : Decay3Body.t exact :=
  Decay3Body.construct decay_vars {[ "w" := par "w" 1 ]} decay_getVar
                       flat_amplitude ps.

(** The same before the constructor has called [cache()]. *)
Definition uncached (ps : PhaseSpace.t exact) : Decay3Body.t exact :=
  Decay3Body.mk decay_vars {[ "w" := par "w" 1 ]} decay_getVar
                flat_amplitude ps d_one (d_of_int 14) [].

(** The same with [_norm] holding [norm]. *)
Definition with_norm (norm : exact) (ps : PhaseSpace.t exact) : Decay3Body.t exact :=
  Decay3Body.set_norm norm (uncached ps).

(** The step of the grid of [cache]. *)
Definition step (ps : PhaseSpace.t exact) : exact :=
  d_div (d_sub (PhaseSpace.mSq12max ps) (PhaseSpace.mSq12min ps))
        (d_of_int Decay3Body.nBins).

(** The step of the grid along m13 taken from the bounds of m13. *)
Definition step13 (ps : PhaseSpace.t exact) : exact :=
  d_div (d_sub (PhaseSpace.mSqMax ps 1) (PhaseSpace.mSqMin ps 1))
        (d_of_int Decay3Body.nBins).

(** The center of bin [bin] as [cache] computes it. *)
Definition center (min step : exact) (bin : Z) : exact :=
  d_add min (d_mul step (d_add (d_of_int bin) d_half)).

(** Three equal daughters: the bounds of m12 and m13 coincide. *)
Definition equal_daughters : PhaseSpace.t exact := phase_space 1 1 1 5.
Definition decay_sym : Decay3Body.t exact := decay equal_daughters.

(** A heavy third daughter: m12 ranges over [4, 9], m13 over [121, 144]. *)
Definition heavy_daughter : PhaseSpace.t exact := phase_space 1 1 10 13.
Definition decay_asym : Decay3Body.t exact := decay heavy_daughter.

(** An efficiency function of mSq12 with its own parameter [w] = 2. *)
Definition efficiency : Function.t exact :=
  Function.mk {[ "mSq12" := var "mSq12" ]} {[ "w" := par "w" 2 ]}
              (fun name => bool_decide (name = "mSq12"))
              (fun _ => q 1).

(** A function of a variable [t] that the decay does not have. *)
Definition resolution : Function.t exact :=
  Function.mk {[ "t" := var "t" ]} ∅
              (fun name => bool_decide (name = "t"))
              (fun _ => q 1).

(** A random source that plays back the uniform draws on [0, 1) it is made
    of, scaled to the interval asked for. *)
#[global] Instance playback : RandomSource exact (list exact) := {|
  flat r min max :=
    match r with
    | u :: r' => (d_add min (d_mul (d_sub max min) u), r')
    | [] => (min, [])
    end |}.

End Inputs.

(** ** The setters of the composer

    [setVar], [setPar], [setVars] and [setPars] write the composite's own
    maps and, through the handles of [_pdfs], the maps of the models: the
    object they act on is the composite together with the memory the handles
    point into. *)

Module PdfSet.
Section defs.
Context `{Double D}.

(** Modelled from the spec: the classes [Variable] and [Parameter] are
    declared in headers that are not among the sources; the spec gives each
    a name, a current value and an uncertainty. [set( val, err )] stores the
    value and the uncertainty, [setValue( val )] the value. *)
Definition Variable_set (val err : D) (v : CfitVariable D) : CfitVariable D :=
  mkVariable (v_name v) val err.
Definition Variable_setValue (val : D) (v : CfitVariable D) : CfitVariable D :=
  mkVariable (v_name v) val (v_error v).
Definition Parameter_set (val err : D) (q : CfitParameter D) : CfitParameter D :=
  mkParameter (p_name q) val err.
Definition Parameter_setValue (val : D) (q : CfitParameter D) : CfitParameter D :=
  mkParameter (p_name q) val (p_error q).

Record state : Type := mkState {
  pdf : Pdf.t D;
  models : gmap nat (PdfModel.t D) }.

Definition set_varMap (vm : gmap string (CfitVariable D)) (p : Pdf.t D) : Pdf.t D :=
  Pdf.mk vm (Pdf._parMap p) (Pdf._pdfs p) (Pdf._pars p) (Pdf._ctnts p)
         (Pdf._opers p) (Pdf._expression p).
Definition set_parMap (pm : gmap string (CfitParameter D)) (p : Pdf.t D) : Pdf.t D :=
  Pdf.mk (Pdf._varMap p) pm (Pdf._pdfs p) (Pdf._pars p) (Pdf._ctnts p)
         (Pdf._opers p) (Pdf._expression p).
Definition model_set_varMap (vm : gmap string (CfitVariable D))
    (m : PdfModel.t D) : PdfModel.t D :=
  PdfModel.mk vm (PdfModel._parMap m) (PdfModel.evaluate m) (PdfModel.evaluate_vars m).
Definition model_set_parMap (pm : gmap string (CfitParameter D))
    (m : PdfModel.t D) : PdfModel.t D :=
  PdfModel.mk (PdfModel._varMap m) pm (PdfModel.evaluate m) (PdfModel.evaluate_vars m).

(** [m[ k ]] read: the entry under [k], inserted default-constructed when
    the map has none. *)
Definition index {T} (default : T) (m : gmap string T) (k : string)
  : gmap string T * T :=
  match m !! k with
  | Some v => (m, v)
  | None => (<[k := default]> m, default)
  end.

Definition UnknownVariable (name : string) : PdfException :=
  PdfError ("Cannot set unexisting variable " +:+ name +:+ ".").
Definition UnknownParameter (name : string) : PdfException :=
  PdfError ("Cannot set unexisting parameter " +:+ name +:+ ".").

(** Setter for individual variable. *)
Definition setVar (name : string) (val err : D) : M state unit :=
  do s <- get;
  if negb (count (Pdf._varMap (pdf s)) name) then throw (UnknownVariable name)
  else
    modify (fun s => mkState
              (set_varMap (alter (Variable_set val err) name (Pdf._varMap (pdf s)))
                          (pdf s))
              (models s)) ;;
    (* Propagate the values to the list of pdfs. *)
    for_each (Pdf._pdfs (pdf s)) (fun model =>
      do s <- get;
      match models s !! model with
      | Some m =>
          if count (PdfModel._varMap m) name
          then modify (fun s => mkState (pdf s)
                 (<[model := model_set_varMap
                      (alter (Variable_set val err) name (PdfModel._varMap m)) m]>
                    (models s)))
          else ret tt
      | None => undefined
      end).

(** Setter for individual parameter. *)
Definition setPar (name : string) (val err : D) : M state unit :=
  do s <- get;
  if negb (count (Pdf._parMap (pdf s)) name) then throw (UnknownParameter name)
  else
    modify (fun s => mkState
              (set_parMap (alter (Parameter_set val err) name (Pdf._parMap (pdf s)))
                          (pdf s))
              (models s)) ;;
    (* Propagate the values to the list of pdfs. *)
    for_each (Pdf._pdfs (pdf s)) (fun model =>
      do s <- get;
      match models s !! model with
      | Some m =>
          if count (PdfModel._parMap m) name
          then modify (fun s => mkState (pdf s)
                 (<[model := model_set_parMap
                      (alter (Parameter_set val err) name (PdfModel._parMap m)) m]>
                    (models s)))
          else ret tt
      | None => undefined
      end).

(** [for ( var = m.begin(); var != m.end(); ++var )
       var->second.setValue( vars[ index++ ] )]. *)
Definition assign_in_order {T} (setValue : D -> T -> T) (m : gmap string T)
    (vars : list D) : gmap string T :=
  foldl (fun m kx => alter (setValue kx.2) kx.1 m) m (zip (keys m) vars).

Section with_defaults.
(** The default-constructed [Variable] and [Parameter]. *)
Context (Variable_default : CfitVariable D) (Parameter_default : CfitParameter D).

(** The inner loop of the propagation of [setVars], for the entry [var] of
    the map of the model at [model]. *)
Definition setVars_entry (model : nat) (var : string * CfitVariable D)
  : M state unit :=
  do s <- get;
  let '(vm, own) := index Variable_default (Pdf._varMap (pdf s)) (v_name var.2) in
  match models s !! model with
  | Some m =>
      modify (fun s => mkState (set_varMap vm (pdf s))
        (<[model := model_set_varMap
             (alter (Variable_setValue (v_value own)) var.1 (PdfModel._varMap m)) m]>
           (models s)))
  | None => undefined
  end.

Definition setVars (vars : list D) : M state unit :=
  do s <- get;
  if decide (size (Pdf._varMap (pdf s)) <> length vars)
  then throw ArgumentCountMismatch
  else
    (* Set the local values of the variables. *)
    modify (fun s => mkState
              (set_varMap (assign_in_order Variable_setValue
                             (Pdf._varMap (pdf s)) vars) (pdf s))
              (models s)) ;;
    (* Propagate the values to the list of pdfs. *)
    for_each (Pdf._pdfs (pdf s)) (fun model =>
      do s <- get;
      match models s !! model with
      | Some m => for_each (entries (PdfModel._varMap m)) (setVars_entry model)
      | None => undefined
      end).

Definition setPars_entry (model : nat) (par : string * CfitParameter D)
  : M state unit :=
  do s <- get;
  let '(pm, own) := index Parameter_default (Pdf._parMap (pdf s)) (p_name par.2) in
  match models s !! model with
  | Some m =>
      modify (fun s => mkState (set_parMap pm (pdf s))
        (<[model := model_set_parMap
             (alter (Parameter_setValue (p_value own)) par.1 (PdfModel._parMap m)) m]>
           (models s)))
  | None => undefined
  end.

Definition setPars (pars : list D) : M state unit :=
  do s <- get;
  if decide (size (Pdf._parMap (pdf s)) <> length pars)
  then throw ArgumentCountMismatch
  else
    (* Set the local values of the parameters. *)
    modify (fun s => mkState
              (set_parMap (assign_in_order Parameter_setValue
                             (Pdf._parMap (pdf s)) pars) (pdf s))
              (models s)) ;;
    (* Propagate the values to the list of pdfs. *)
    for_each (Pdf._pdfs (pdf s)) (fun model =>
      do s <- get;
      match models s !! model with
      | Some m => for_each (entries (PdfModel._parMap m)) (setPars_entry model)
      | None => undefined
      end).
End with_defaults.
End defs.
Arguments state D : clear implicits.
End PdfSet.

(** ** Decay3Body::project

    [binCenter] is declared outside the sources and taken as given. *)

Module Projection.
Section defs.
Context `{Double D} (binCenter : Z -> Z -> D -> D -> D).

(** Find the index of the variable to be projected. *)
Definition index (d : Decay3Body.t D) (varName : string) : Z :=
  foldl (fun index var =>
           if decide (varName = v_name (Decay3Body.getVar d var))
           then Z.of_nat var else index)
        (-1)%Z [0; 1; 2]%nat.

Definition nbins : Z := 400.

Definition project (d : Decay3Body.t D) (varName : string) (x : D) : D :=
  let index := index d varName in
  (* If the pdf does not depend on the passed variable name, the projection is 1. *)
  if decide (index = (-1)%Z) then d_one
  else
    let ps := Decay3Body._ps d in
    let min := PhaseSpace.mSqMin ps (Z.to_nat ((index + 1) mod 3)) in
    let max := PhaseSpace.mSqMax ps (Z.to_nat ((index + 1) mod 3)) in
    (* Integrate the model. *)
    let proj :=
      foldl (fun proj yBin =>
               let y := binCenter yBin nbins min max in
               let z := d_sub (d_sub (PhaseSpace.mSqSum ps) x) y in
               let proj := if decide (index = 0%Z)
                           then d_add proj (Decay3Body.evaluate3 d x y z) else proj in
               let proj := if decide (index = 1%Z)
                           then d_add proj (Decay3Body.evaluate3 d z x y) else proj in
               if decide (index = 2%Z)
               then d_add proj (Decay3Body.evaluate3 d y z x) else proj)
            d_zero (seqZ 0 nbins) in
    d_mul proj (d_div (d_sub max min) (d_of_int nbins)).
End defs.
End Projection.

(** The memory after a propagation that has done [G] to the models at the
    handles [l]. *)
Definition propagated {D} (G : PdfModel.t D -> PdfModel.t D) (l : list nat)
    (ms : gmap nat (PdfModel.t D)) : gmap nat (PdfModel.t D) :=
  map_imap (fun model m => Some (if decide (model ∈ l) then G m else m)) ms.

(** ** Sequences of calls on a composite *)

Module PdfCalls.
Section defs.
Context `{Double D}.

(** The composite after the calls [cs], one after the other; a call that
    throws leaves the composite as it finds it and the next one goes on. *)
Definition exec_all (h : gmap nat (PdfModel.t D)) (cs : list (PdfCall.t D))
    (p : Pdf.t D) : Pdf.t D :=
  foldl (fun p c => (PdfCall.exec h c p).1) p cs.

(** The compound assignments, as opposed to the appends and to [operator=]. *)
Definition compound (c : PdfCall.t D) : bool :=
  match c with
  | PdfCall.Add_assign_model _ | PdfCall.Mul_assign_model _
  | PdfCall.Add_assign_pdf _ | PdfCall.Mul_assign_pdf _
  | PdfCall.Mul_assign_par _ | PdfCall.Div_assign_par _
  | PdfCall.Mul_assign_expr _ | PdfCall.Div_assign_expr _
  | PdfCall.Mul_assign_ctnt _ | PdfCall.Div_assign_ctnt _ => true
  | _ => false
  end.

(** What [evaluate()] pushes for a model-leaf. *)
Definition leaf (m : PdfModel.t D) : outcome D :=
  PdfModel.evaluate m (PdfModel._varMap m) (PdfModel._parMap m).

(** The composite evaluates to [v], its vectors read to their ends. *)
Definition evaluates_to (h : gmap nat (PdfModel.t D)) (p : Pdf.t D) (v : D) : Prop :=
  Pdf.run h leaf p (Pdf._expression p) (Pdf.start p)
    = Returned (Pdf.mkMachine [] [] [] [] [v]).
End defs.
End PdfCalls.

(** ** The points of generate

    The map [generate] returns holds three names and their values. *)
Definition triple {D} (name12 name13 name23 : string) (a b c : D) : gmap string D :=
  assign (assign (assign ∅ name12 a) name13 b) name23 c.

(** The sum of squared masses as [generate] computes it. *)
Definition generate_mSqSum `{Double D} (ps : PhaseSpace.t D) : D :=
  d_add (d_add (d_add (PhaseSpace.mSqMother ps) (PhaseSpace.mSq1 ps))
               (PhaseSpace.mSq2 ps)) (PhaseSpace.mSq3 ps).

(** ** More concrete inputs *)

Module MoreInputs.

(** A weight that is -1 everywhere, as a function of mSq13. *)
Definition negative_weight : Function.t exact :=
  Function.mk {[ "mSq13" := Inputs.var "mSq13" ]} ∅
              (fun name => bool_decide (name = "mSq13"))
              (fun _ => Inputs.q (-1)).

(** The decay with three equal daughters, before [cache()], multiplied by
    the efficiency and by the negative weight. *)
Definition weighted : Decay3Body.t exact :=
  Decay3Body.set_funcs [Inputs.efficiency; negative_weight]
                       (Inputs.uncached Inputs.equal_daughters).

(** The midpoint of bin [bin] out of [n] between [min] and [max]. *)
Definition midpoint (bin n : Z) (min max : exact) : exact :=
  d_add min (d_mul (d_div (d_sub max min) (d_of_int n))
                   (d_add (d_of_int bin) d_half)).

(** The product of A(x) and B(y), with the memory that holds A, B and C. *)
Definition composite : PdfSet.state exact :=
  PdfSet.mkState Inputs.product_AB Inputs.models.

(** A density of x with the parameter mu, that always returns 2. *)
Definition with_par : PdfModel.t exact :=
  PdfModel.mk {[ "x" := Inputs.var "x" ]} {[ "mu" := Inputs.par "mu" 1 ]}
              (fun _ _ => Returned (Inputs.q 2)) (fun _ => Returned (Inputs.q 2)).

(** G(x; mu) at address 0, B(y) at address 1, and a second G(x; mu), that
    no composite embeds, at address 2. *)
Definition par_models : gmap nat (PdfModel.t exact) :=
  {[ 0%nat := with_par; 1%nat := Inputs.stub ["y"] 3; 2%nat := with_par ]}.

(** [Pdf p = G; p *= B], with its memory. *)
Definition composite_with_par : PdfSet.state exact :=
  PdfSet.mkState
    (Pdf.mul_assign_model par_models 1
       (Pdf.assign_model par_models 0 Pdf.empty).1).1
    par_models.

End MoreInputs.

(** * Properties *)

(** ** The standard containers and algorithms *)

(** *** The order on names is a strict total order *)

Lemma ascii_compare_refl (c : Ascii.ascii) : Ascii.compare c c = Eq.
Proof. unfold Ascii.compare. apply N.compare_refl. Qed.

Lemma string_compare_refl (s : string) : String.compare s s = Eq.
Proof. induction s as [|c s IH]; simpl; [done|]. by rewrite ascii_compare_refl. Qed.

Lemma string_compare_eq (s1 s2 : string) : String.compare s1 s2 = Eq <-> s1 = s2.
Proof.
  split; [apply String.compare_eq_iff|]. intros ->. apply string_compare_refl.
Qed.

Lemma ascii_compare_lt_trans (a b c : Ascii.ascii) :
  Ascii.compare a b = Lt -> Ascii.compare b c = Lt -> Ascii.compare a c = Lt.
Proof.
  unfold Ascii.compare. rewrite !N.compare_lt_iff. lia.
Qed.

Lemma string_compare_lt_trans (s1 s2 s3 : string) :
  String.compare s1 s2 = Lt -> String.compare s2 s3 = Lt ->
  String.compare s1 s3 = Lt.
Proof.
  revert s2 s3. induction s1 as [|a s1 IH]; intros [|b s2] [|c s3]; simpl; try done.
  destruct (Ascii.compare a b) eqn:Hab; try done.
  - apply Ascii.compare_eq_iff in Hab as ->.
    destruct (Ascii.compare b c); try done. apply IH.
  - destruct (Ascii.compare b c) eqn:Hbc; try done.
    + apply Ascii.compare_eq_iff in Hbc as <-. by rewrite Hab.
    + by rewrite (ascii_compare_lt_trans a b c).
Qed.

Lemma name_lt_irrefl a : ~ name_lt a a.
Proof. unfold name_lt, String.ltb. by rewrite string_compare_refl. Qed.

Lemma name_lt_trans a b c : name_lt a b -> name_lt b c -> name_lt a c.
Proof.
  unfold name_lt, String.ltb. intros Hab Hbc.
  destruct (String.compare a b) eqn:E1; try done.
  destruct (String.compare b c) eqn:E2; try done.
  by rewrite (string_compare_lt_trans a b c).
Qed.

Lemma name_lt_asym a b : name_lt a b -> ~ name_lt b a.
Proof. intros H1 H2. exact (name_lt_irrefl a (name_lt_trans _ _ _ H1 H2)). Qed.

Lemma name_trichotomy a b : name_lt a b \/ a = b \/ name_lt b a.
Proof.
  unfold name_lt, String.ltb. rewrite (String.compare_antisym b a).
  destruct (String.compare a b) eqn:E; simpl; auto.
  right; left. by apply string_compare_eq.
Qed.

Lemma name_le_lt_eq a b : name_le a b <-> name_lt a b \/ a = b.
Proof.
  unfold name_le, name_lt, String.leb, String.ltb. split.
  - destruct (String.compare a b) eqn:E; try done; auto.
    right. by apply string_compare_eq.
  - intros [H| ->]; [by destruct (String.compare a b)|].
    by rewrite string_compare_refl.
Qed.

#[global] Instance name_lt_strict : StrictOrder name_lt.
Proof. split; [exact name_lt_irrefl | exact name_lt_trans]. Qed.

#[global] Instance name_le_total : Total name_le.
Proof. intros a b. apply String.leb_total. Qed.

#[global] Instance name_le_trans : Transitive name_le.
Proof.
  intros a b c. rewrite !name_le_lt_eq. intros [H1| ->] [H2| ->]; auto.
  left. by eapply name_lt_trans.
Qed.

#[global] Instance name_le_antisym : AntiSymm (=) name_le.
Proof. intros a b. apply String.leb_antisym. Qed.

(** *** Iteration order of a map *)

Section std_map_facts.
Context {T : Type}.
Implicit Types (m : gmap string T) (k : string).

Lemma keys_perm m : keys m ≡ₚ elements (dom m).
Proof. apply merge_sort_Permutation. Qed.

Lemma elem_of_keys m k : k ∈ keys m <-> is_Some (m !! k).
Proof. by rewrite keys_perm, elem_of_elements, elem_of_dom. Qed.

Lemma NoDup_keys m : NoDup (keys m).
Proof. rewrite keys_perm. apply NoDup_elements. Qed.

Lemma length_keys m : length (keys m) = size m.
Proof. by rewrite keys_perm, <- size_dom. Qed.

Lemma sorted_le_NoDup_lt (l : list string) :
  StronglySorted name_le l -> NoDup l -> StronglySorted name_lt l.
Proof.
  induction 1 as [|a l Hl IH Ha]; intros Hnd; [constructor|].
  apply NoDup_cons in Hnd as [Hnotin Hnd]. constructor; [by apply IH|].
  apply Forall_forall. intros b Hb.
  rewrite Forall_forall in Ha. specialize (Ha b Hb).
  apply name_le_lt_eq in Ha as [?| ->]; [done|]. by destruct Hnotin.
Qed.

Lemma keys_sorted m : StronglySorted name_lt (keys m).
Proof.
  apply sorted_le_NoDup_lt; [|apply NoDup_keys].
  apply StronglySorted_merge_sort; apply _.
Qed.

End std_map_facts.

Lemma elem_of_keys_any {U} (m : gmap string U) k : k ∈ keys m <-> is_Some (m !! k).
Proof. apply elem_of_keys. Qed.

Section std_map_facts2.
Context {T : Type}.
Implicit Types (m : gmap string T) (k : string).

(** Two maps list the same names exactly when they have the same key set. *)
Lemma keys_eq_dom {U} m (m' : gmap string U) : keys m = keys m' <-> dom m = dom m'.
Proof.
  split.
  - intros E. apply set_eq. intros k.
    rewrite !elem_of_dom. split; intros Hk.
    + apply (elem_of_keys_any m'). rewrite <- E. by apply (elem_of_keys m).
    + apply (elem_of_keys m). rewrite E. by apply (elem_of_keys_any m').
  - intros E. unfold keys. by rewrite E.
Qed.

Lemma elem_of_entries m k (v : T) : (k, v) ∈ entries m <-> m !! k = Some v.
Proof.
  unfold entries. rewrite list_elem_of_omap. split.
  - intros (k' & _ & Hk'). destruct (m !! k') eqn:E; simplify_eq/=. done.
  - intros Hk. exists k. split; [apply elem_of_keys; eauto|]. by rewrite Hk.
Qed.

Lemma entries_fst m : (entries m).*1 = keys m.
Proof.
  unfold entries.
  assert (Hall : forall k, k ∈ keys m -> is_Some (m !! k))
    by (intros k; apply elem_of_keys).
  induction (keys m) as [|k l IH]; [done|]. simpl.
  destruct (Hall k) as [v Hv]; [left|]. rewrite Hv. simpl. f_equal.
  apply IH. intros k' Hk'. apply Hall. by right.
Qed.

Lemma elem_of_values m (v : T) : v ∈ values m <-> exists k, m !! k = Some v.
Proof.
  unfold values. rewrite list_elem_of_fmap. split.
  - intros ([k v'] & -> & Hin). exists k. by apply elem_of_entries.
  - intros (k & Hk). exists (k, v). split; [done|]. by apply elem_of_entries.
Qed.

Lemma list_to_map_entries m : list_to_map (entries m) = m.
Proof.
  apply map_eq. intros k. apply option_eq. intros v.
  rewrite <- elem_of_list_to_map; [apply elem_of_entries|].
  rewrite entries_fst. apply NoDup_keys.
Qed.

(** [insert( first, last )] keeps what the map already has: it is the
    left-biased union with the range, the first of equal keys winning. *)
Lemma insert_range_list m (r : list (string * T)) :
  insert_range m r = m ∪ list_to_map r.
Proof.
  revert m. induction r as [|[k v] r IH]; intros m; simpl.
  { by rewrite (right_id_L ∅ (∪)). }
  fold (insert_range (match m !! k with Some _ => m | None => <[k:=v]> m end) r).
  rewrite IH. apply map_eq. intros i. rewrite !lookup_union.
  destruct (m !! k) eqn:Hk.
  - destruct (decide (k = i)) as [->|Hne].
    + rewrite Hk, lookup_insert_eq. by destruct (list_to_map r !! i).
    + by rewrite lookup_insert_ne.
  - destruct (decide (k = i)) as [->|Hne].
    + rewrite Hk, !lookup_insert_eq. by destruct (list_to_map r !! i).
    + by rewrite !lookup_insert_ne.
Qed.

Lemma insert_range_entries m m' : insert_range m (entries m') = m ∪ m'.
Proof. by rewrite insert_range_list, list_to_map_entries. Qed.

Lemma count_true m k : count m k = true <-> is_Some (m !! k).
Proof. unfold count. apply bool_decide_eq_true. Qed.
End std_map_facts2.

(** *** The merges on sorted vectors of names *)

Lemma set_intersection_cons a x b y :
  set_intersection (a :: x) (b :: y) =
    if decide (name_lt a b) then set_intersection x (b :: y)
    else if decide (name_lt b a) then set_intersection (a :: x) y
    else a :: set_intersection x y.
Proof. done. Qed.

Lemma set_intersection_nil_r x : set_intersection x [] = [].
Proof. by destruct x. Qed.

Lemma sorted_lt_not_elem a (l : list string) b :
  StronglySorted name_lt (a :: l) -> name_lt b a -> b ∉ a :: l.
Proof.
  intros Hs Hlt Hin. apply StronglySorted_inv in Hs as [_ Hall].
  rewrite Forall_forall in Hall.
  apply elem_of_cons in Hin as [->|Hin]; [by eapply name_lt_irrefl|].
  eapply name_lt_asym; [exact Hlt|]. by apply Hall.
Qed.

Lemma elem_of_set_intersection (x y : list string) n :
  StronglySorted name_lt x -> StronglySorted name_lt y ->
  n ∈ set_intersection x y <-> n ∈ x /\ n ∈ y.
Proof.
  intros Hx. revert y. induction Hx as [|a x Hx IHx Ha]; intros y Hy.
  { simpl. split; [|intros [Hn _]; by apply not_elem_of_nil in Hn].
    destruct y; intros Hn; by apply not_elem_of_nil in Hn. }
  induction Hy as [|b y Hy IHy Hb].
  { rewrite set_intersection_nil_r.
    split; [intros Hn|intros [_ Hn]]; by apply not_elem_of_nil in Hn. }
  assert (Hax : StronglySorted name_lt (a :: x)) by by constructor.
  assert (Hby : StronglySorted name_lt (b :: y)) by by constructor.
  rewrite set_intersection_cons.
  destruct (decide (name_lt a b)) as [Hab|Hab].
  - rewrite IHx by done. pose proof (sorted_lt_not_elem b y a Hby Hab) as Hn.
    rewrite (elem_of_cons x). split; [tauto|]. intros [[->|?] ?]; tauto.
  - destruct (decide (name_lt b a)) as [Hba|Hba].
    + rewrite IHy. pose proof (sorted_lt_not_elem a x b Hax Hba) as Hn.
      rewrite (elem_of_cons y). split; [tauto|]. intros [? [->|?]]; tauto.
    + assert (a = b) as <- by (destruct (name_trichotomy a b) as [?|[?|?]]; done).
      rewrite !elem_of_cons, IHx by done. tauto.
Qed.

(** On the names of two maps the intersection is empty exactly when the maps
    share no key. *)
Lemma set_intersection_keys_nil {T U} (m : gmap string T) (m' : gmap string U) :
  set_intersection (keys m) (keys m') = [] <-> dom m ## dom m'.
Proof.
  split.
  - intros E k Hk Hk'. apply elem_of_dom, elem_of_keys in Hk, Hk'.
    assert (k ∈ set_intersection (keys m) (keys m')) as Hin
      by (apply elem_of_set_intersection; auto using keys_sorted).
    rewrite E in Hin. by apply not_elem_of_nil in Hin.
  - intros Hdisj. apply elem_of_nil_inv. intros k Hin.
    apply elem_of_set_intersection in Hin as [Hk Hk']; auto using keys_sorted.
    apply (Hdisj k); apply elem_of_dom, elem_of_keys; done.
Qed.

(** ** The composer *)

(** *** Invariants through the monad *)

Section preserves_facts.
Context {S : Type} (I : S -> Prop).

Lemma preserves_ret {A} (a : A) : preserves I (ret a).
Proof. by intros s. Qed.

Lemma preserves_throw {A} e : preserves I (@throw S A e).
Proof. by intros s. Qed.

Lemma preserves_get : preserves I get.
Proof. by intros s. Qed.

Lemma preserves_modify (f : S -> S) :
  (forall s, I s -> I (f s)) -> preserves I (modify f).
Proof. intros Hf s Hs. by apply Hf. Qed.

Lemma preserves_bind {A B} (m : M S A) (k : A -> M S B) :
  preserves I m -> (forall a, preserves I (k a)) -> preserves I (bind m k).
Proof.
  intros Hm Hk s Hs. unfold bind. specialize (Hm s Hs).
  destruct (m s) as [s' [a|e|]]; simpl in *; [by apply Hk|done..].
Qed.
End preserves_facts.

Section pdf_facts.
Context `{Double D}.
Implicit Types (p q : Pdf.t D) (h : gmap nat (PdfModel.t D)).

Lemma deref_Some {S} h model m (s : S) :
  h !! model = Some m -> Pdf.deref h model s = (s, Returned m).
Proof. unfold Pdf.deref. by intros ->. Qed.

Lemma preserves_deref {S} (I : S -> Prop) h model : preserves I (Pdf.deref h model).
Proof. intros s Hs. unfold Pdf.deref. by destruct (h !! model). Qed.

(** *** Legality of sums and products *)

Lemma add_assign_model_unfold h right m p :
  h !! right = Some m ->
  Pdf.add_assign_model h right p =
    if decide (Pdf.varNames p <> PdfModel.varNames m)
    then (p, Thrown IncompatibleVariablesError)
    else (Pdf.append_model h right ;; Pdf.append_oper Operation.plus) p.
Proof.
  intros Hm. unfold Pdf.add_assign_model, bind at 1.
  rewrite (deref_Some _ _ _ _ Hm). unfold bind at 1, get. by case_decide.
Qed.

Lemma mul_assign_model_unfold h right m p :
  h !! right = Some m ->
  Pdf.mul_assign_model h right p =
    if decide (set_intersection (Pdf.varNames p) (PdfModel.varNames m) <> [])
    then (p, Thrown OverlappingVariablesError)
    else (Pdf.append_model h right ;; Pdf.append_oper Operation.mult) p.
Proof.
  intros Hm. unfold Pdf.mul_assign_model, bind at 1.
  rewrite (deref_Some _ _ _ _ Hm). unfold bind at 1, get. by case_decide.
Qed.

Lemma add_assign_pdf_unfold q p :
  Pdf.add_assign_pdf q p =
    if decide (Pdf.varNames p <> Pdf.varNames q)
    then (p, Thrown IncompatibleVariablesError)
    else (Pdf.append_pdf q ;; Pdf.append_oper Operation.plus) p.
Proof. unfold Pdf.add_assign_pdf, bind at 1, get. by case_decide. Qed.

Lemma mul_assign_pdf_unfold q p :
  Pdf.mul_assign_pdf q p =
    if decide (set_intersection (Pdf.varNames p) (Pdf.varNames q) <> [])
    then (p, Thrown OverlappingVariablesError)
    else (Pdf.append_pdf q ;; Pdf.append_oper Operation.mult) p.
Proof. unfold Pdf.mul_assign_pdf, bind at 1, get. by case_decide. Qed.

Lemma append_model_oper_returns h right m oper p :
  h !! right = Some m ->
  exists p', (Pdf.append_model h right ;; Pdf.append_oper oper) p = (p', Returned tt)
             /\ Pdf._expression p' = (Pdf._expression p +:+ "m") +:+ "b"
             /\ Pdf._pdfs p' = Pdf._pdfs p ++ [right]
             /\ Pdf._opers p' = Pdf._opers p ++ [oper].
Proof.
  intros Hm. eexists. unfold bind, Pdf.append_model, bind.
  rewrite (deref_Some _ _ _ _ Hm). simpl. done.
Qed.

Lemma append_pdf_oper_returns q oper p :
  exists p', (Pdf.append_pdf q ;; Pdf.append_oper oper) p = (p', Returned tt)
             /\ Pdf._expression p' = (Pdf._expression p +:+ Pdf._expression q) +:+ "b"
             /\ Pdf._pdfs p' = Pdf._pdfs p ++ Pdf._pdfs q
             /\ Pdf._opers p' = (Pdf._opers p ++ Pdf._opers q) ++ [oper].
Proof. eexists. unfold bind. simpl. done. Qed.

(** C6. A sum with a model or with a sub-expression goes through exactly
    when the two sorted lists of variable names are equal; otherwise it
    throws "Cannot add two pdfs that do not depend on the same variables."
    and the composite is the one before the call. *)
Theorem C6_sum_needs_equal_names h p right m q
    (Hright : h !! right = Some m) :
  ((Pdf.varNames p = PdfModel.varNames m /\
     exists p', Pdf.add_assign_model h right p = (p', Returned tt)
                /\ Pdf._expression p' = (Pdf._expression p +:+ "m") +:+ "b")
   \/ (Pdf.varNames p <> PdfModel.varNames m /\
       Pdf.add_assign_model h right p = (p, Thrown IncompatibleVariablesError)))
  /\
  ((Pdf.varNames p = Pdf.varNames q /\
     exists p', Pdf.add_assign_pdf q p = (p', Returned tt)
                /\ Pdf._expression p' =
                     (Pdf._expression p +:+ Pdf._expression q) +:+ "b")
   \/ (Pdf.varNames p <> Pdf.varNames q /\
       Pdf.add_assign_pdf q p = (p, Thrown IncompatibleVariablesError))).
Proof.
  split.
  - rewrite (add_assign_model_unfold _ _ _ _ Hright).
    case_decide as Hne; [by right|left].
    split; [done|].
    destruct (append_model_oper_returns h right m Operation.plus p Hright)
      as (p' & -> & He & _). eauto.
  - rewrite add_assign_pdf_unfold.
    case_decide as Hne; [by right|left].
    split; [done|].
    destruct (append_pdf_oper_returns q Operation.plus p) as (p' & -> & He & _).
    eauto.
Qed.

(** C7. A product with a model or with a sub-expression goes through
    exactly when the two sets of variable names are disjoint; otherwise it
    throws "Cannot multiply two pdfs that depend on some common variable."
    and the composite is the one before the call. *)
Theorem C7_product_needs_disjoint_names h p right m q
    (Hright : h !! right = Some m) :
  ((dom (Pdf._varMap p) ## dom (PdfModel._varMap m) /\
     exists p', Pdf.mul_assign_model h right p = (p', Returned tt)
                /\ Pdf._expression p' = (Pdf._expression p +:+ "m") +:+ "b")
   \/ (~ dom (Pdf._varMap p) ## dom (PdfModel._varMap m) /\
       Pdf.mul_assign_model h right p = (p, Thrown OverlappingVariablesError)))
  /\
  ((dom (Pdf._varMap p) ## dom (Pdf._varMap q) /\
     exists p', Pdf.mul_assign_pdf q p = (p', Returned tt)
                /\ Pdf._expression p' =
                     (Pdf._expression p +:+ Pdf._expression q) +:+ "b")
   \/ (~ dom (Pdf._varMap p) ## dom (Pdf._varMap q) /\
       Pdf.mul_assign_pdf q p = (p, Thrown OverlappingVariablesError))).
Proof.
  split.
  - rewrite (mul_assign_model_unfold _ _ _ _ Hright).
    unfold Pdf.varNames, PdfModel.varNames.
    case_decide as Hne.
    + right. split; [|done]. by rewrite <- set_intersection_keys_nil.
    + left.
      split; [by apply set_intersection_keys_nil|].
      destruct (append_model_oper_returns h right m Operation.mult p Hright)
        as (p' & -> & He & _). eauto.
  - rewrite mul_assign_pdf_unfold. unfold Pdf.varNames.
    case_decide as Hne.
    + right. split; [|done]. by rewrite <- set_intersection_keys_nil.
    + left.
      split; [by apply set_intersection_keys_nil|].
      destruct (append_pdf_oper_returns q Operation.mult p) as (p' & -> & He & _).
      eauto.
Qed.
End pdf_facts.

(** *** Evaluation of an extended program *)

Section eval_facts.
Context `{Double D}.
Implicit Types (p q : Pdf.t D) (h : gmap nat (PdfModel.t D)) (s : Pdf.machine D).

Lemma run_app h leaf p e1 e2 s :
  Pdf.run h leaf p (e1 +:+ e2) s =
    match Pdf.run h leaf p e1 s with
    | Returned s' => Pdf.run h leaf p e2 s'
    | Thrown e => Thrown e
    | Undefined => Undefined
    end.
Proof.
  revert s. induction e1 as [|ch e1 IH]; intros s; simpl; [done|].
  destruct (Pdf.step h leaf p ch s) as [s'| |]; simpl; [apply IH|done..].
Qed.

(** A step reads the composite only through its parameter map. *)
Lemma step_parMap h leaf p q ch s :
  Pdf._parMap p = Pdf._parMap q -> Pdf.step h leaf p ch s = Pdf.step h leaf q ch s.
Proof. intros E. unfold Pdf.step. by rewrite E. Qed.

Lemma run_parMap h leaf p q e s :
  Pdf._parMap p = Pdf._parMap q -> Pdf.run h leaf p e s = Pdf.run h leaf q e s.
Proof.
  intros E. revert s. induction e as [|ch e IH]; intros s; simpl; [done|].
  rewrite (step_parMap h leaf p q ch s E).
  destruct (Pdf.step h leaf q ch s); simpl; auto.
Qed.

(** A step that returns does the same with longer vectors. *)
Lemma step_behind h leaf p ch s s' pdfs pars ctts opss :
  Pdf.step h leaf p ch s = Returned s' ->
  Pdf.step h leaf p ch (Pdf.behind s pdfs pars ctts opss)
    = Returned (Pdf.behind s' pdfs pars ctts opss).
Proof.
  destruct s as [ip ia ic io st]. unfold Pdf.step, Pdf.behind. simpl.
  repeat case_decide.
  - destruct ip as [|pdf ip]; [done|]. simpl.
    destruct (h !! pdf); [|done]. destruct (leaf t); simpl; [|done..].
    by intros [= <-].
  - destruct ia as [|par ia]; [done|]. simpl.
    destruct (Pdf._parMap p !! p_name par); [|done]. by intros [= <-].
  - destruct ic as [|ctt ic]; [done|]. simpl. by intros [= <-].
  - destruct st as [|y [|x st]]; [done..|].
    destruct io as [|oper io]; [done|]. simpl.
    destruct (Pdf.operate2 x y oper); simpl; [|done..]. by intros [= <-].
  - destruct st as [|x st]; [done|].
    destruct io as [|oper io]; [done|]. simpl.
    destruct (Pdf.operate1 x oper); simpl; [|done..]. by intros [= <-].
  - done.
Qed.

Lemma run_behind h leaf p e s s' pdfs pars ctts opss :
  Pdf.run h leaf p e s = Returned s' ->
  Pdf.run h leaf p e (Pdf.behind s pdfs pars ctts opss)
    = Returned (Pdf.behind s' pdfs pars ctts opss).
Proof.
  revert s. induction e as [|ch e IH]; intros s; simpl.
  { by intros [= <-]. }
  destruct (Pdf.step h leaf p ch s) as [s1| |] eqn:Hstep; simpl; [|done..].
  intros Hrun. rewrite (step_behind _ _ _ _ _ _ _ _ _ _ Hstep). simpl. by apply IH.
Qed.

Lemma operate2_div (x y : D) :
  Pdf.operate2 x y Operation.div = Returned (d_div x y).
Proof. done. Qed.

(** C9. The binary division is not guarded: [operate] returns the quotient
    of its operands whatever the divisor, and dividing a composite that
    evaluates to [v] by a constant [c] evaluates to the quotient of [v] by
    [c], without any exception, for every [c], zero included. *)
Theorem C9_division_is_unguarded h p (v c : D)
    (Hp : Pdf.run h (fun m => PdfModel.evaluate m (PdfModel._varMap m)
                                                  (PdfModel._parMap m))
                  p (Pdf._expression p) (Pdf.start p)
          = Returned (Pdf.mkMachine [] [] [] [] [v])) :
  (forall x y : D, Pdf.operate2 x y Operation.div = Returned (d_div x y)) /\
  Pdf.evaluate h (Pdf.div_assign_ctnt c p).1 = Returned (d_div v c) /\
  Pdf.evaluate h (Pdf.div_assign_ctnt d_zero p).1 = Returned (d_div v d_zero).
Proof.
  split; [exact operate2_div|].
  assert (Hdiv : forall c', Pdf.evaluate h (Pdf.div_assign_ctnt c' p).1
                            = Returned (d_div v c')).
  { intros c'. unfold Pdf.evaluate, Pdf.div_assign_ctnt, bind. simpl.
    rewrite run_app.
    erewrite run_parMap with (q := p) by done.
    pose proof (run_behind _ _ _ _ _ _ [] [] [c'] [Operation.div] Hp) as Hb.
    unfold Pdf.behind, Pdf.start in Hb. simpl in Hb.
    unfold Pdf.start. simpl. rewrite !(right_id_L [] (++)) in Hb.
    rewrite run_app, Hb. simpl. done. }
  split; apply Hdiv.
Qed.
End eval_facts.

(** *** The names of the embedded models stay covered *)

Section covers_facts.
Context `{Double D}.
Implicit Types (p q : Pdf.t D) (h : gmap nat (PdfModel.t D)).

Lemma covers_extend h p p' (more : list nat) :
  PdfCall.covers h p ->
  Pdf._pdfs p' = Pdf._pdfs p ++ more ->
  dom (Pdf._varMap p) ⊆ dom (Pdf._varMap p') ->
  dom (Pdf._parMap p) ⊆ dom (Pdf._parMap p') ->
  (forall model m, model ∈ more -> h !! model = Some m ->
     dom (PdfModel._varMap m) ⊆ dom (Pdf._varMap p') /\
     dom (PdfModel._parMap m) ⊆ dom (Pdf._parMap p')) ->
  PdfCall.covers h p'.
Proof.
  intros Hp Hpdfs Hv Hq Hmore model m Hin Hm.
  rewrite Hpdfs in Hin. apply elem_of_app in Hin as [Hin|Hin].
  - destruct (Hp model m Hin Hm) as [Hv' Hq']. split; by etrans.
  - by apply (Hmore model m).
Qed.

Lemma dom_foldl_assign {T} (name : T -> string) (l : list T) (m : gmap string T) :
  dom m ⊆ dom (foldl (fun pm x => assign pm (name x) x) m l).
Proof.
  revert m. induction l as [|x l IH]; intros m; simpl; [done|].
  etrans; [|apply IH]. unfold assign. rewrite dom_insert_L.
  apply union_subseteq_r.
Qed.

Lemma covers_append_model h model :
  preserves (PdfCall.covers h) (Pdf.append_model h model).
Proof.
  intros p Hp. unfold Pdf.append_model, bind, Pdf.deref.
  destruct (h !! model) as [m|] eqn:Hm; simpl; [|done].
  eapply (covers_extend h p _ [model]); [done|done|..]; simpl;
    rewrite ?insert_range_entries, ?dom_union_L; try apply union_subseteq_l.
  intros model' m' Hin Hm'. apply list_elem_of_singleton in Hin as ->.
  rewrite Hm in Hm'. injection Hm' as <-.
  rewrite ?insert_range_entries, ?dom_union_L. split; apply union_subseteq_r.
Qed.

Lemma covers_append_pdf h q :
  PdfCall.covers h q -> preserves (PdfCall.covers h) (Pdf.append_pdf q).
Proof.
  intros Hq p Hp. unfold Pdf.append_pdf, modify. simpl.
  eapply (covers_extend h p _ (Pdf._pdfs q)); [done|done|..]; simpl;
    rewrite ?insert_range_entries, ?dom_union_L; try apply union_subseteq_l.
  intros model m Hin Hm. destruct (Hq model m Hin Hm) as [Hv Hpar].
  rewrite ?insert_range_entries, ?dom_union_L.
  split; (etrans; [eassumption|apply union_subseteq_r]).
Qed.

Lemma covers_same_models h p p' :
  PdfCall.covers h p ->
  Pdf._pdfs p' = Pdf._pdfs p ->
  dom (Pdf._varMap p) ⊆ dom (Pdf._varMap p') ->
  dom (Pdf._parMap p) ⊆ dom (Pdf._parMap p') ->
  PdfCall.covers h p'.
Proof.
  intros Hp Hpdfs Hv Hq. apply (covers_extend h p p' []); try done.
  - by rewrite (right_id_L [] (++)).
  - intros model m Hin. by apply not_elem_of_nil in Hin.
Qed.

Lemma covers_append_par h par :
  preserves (PdfCall.covers h) (Pdf.append_par par).
Proof.
  intros p Hp. apply (covers_same_models h p); simpl; [done..|].
  unfold assign. rewrite dom_insert_L. apply union_subseteq_r.
Qed.

Lemma covers_append_expr h expr :
  preserves (PdfCall.covers h) (Pdf.append_expr expr).
Proof.
  intros p Hp. apply (covers_same_models h p); simpl; [done..|].
  apply (dom_foldl_assign p_name).
Qed.

Lemma covers_append_ctnt h ctnt :
  preserves (PdfCall.covers h) (Pdf.append_ctnt ctnt).
Proof. intros p Hp. by apply (covers_same_models h p). Qed.

Lemma covers_append_oper h oper :
  preserves (PdfCall.covers h) (Pdf.append_oper oper).
Proof. intros p Hp. by apply (covers_same_models h p). Qed.

Create HintDb covers.
#[local] Hint Resolve preserves_ret preserves_throw preserves_get
  preserves_deref covers_append_model covers_append_par covers_append_expr
  covers_append_ctnt covers_append_oper covers_append_pdf : covers.

Ltac covers_steps :=
  repeat first
    [ solve [eauto with covers]
    | match goal with
      | |- preserves _ (if decide ?P then _ else _) => destruct (decide P)
      end
    | apply preserves_bind; [|intros ?] ].

Lemma covers_exec h c :
  PdfCall.operand_covers h c -> preserves (PdfCall.covers h) (PdfCall.exec h c).
Proof.
  destruct c; simpl; intros Hc;
    unfold Pdf.assign_model, Pdf.add_assign_model, Pdf.mul_assign_model,
      Pdf.add_assign_pdf, Pdf.mul_assign_pdf, Pdf.mul_assign_par,
      Pdf.div_assign_par, Pdf.mul_assign_expr, Pdf.div_assign_expr,
      Pdf.mul_assign_ctnt, Pdf.div_assign_ctnt;
    covers_steps.
Qed.

Lemma covers_empty h : PdfCall.covers h Pdf.empty.
Proof. intros model m Hin. by apply not_elem_of_nil in Hin. Qed.

(** The dictionary built by [evaluate( vars )] has the keys of the
    composite's variable map. *)
Lemma dom_foldl_pairs (l : list (string * D)) (m : gmap string D) :
  dom (foldl (fun m kv => assign m kv.1 kv.2) m l) = dom m ∪ list_to_set l.*1.
Proof.
  revert m. induction l as [|[k v] l IH]; intros m; simpl.
  { by rewrite (right_id_L ∅ (∪)). }
  rewrite IH. unfold assign. rewrite dom_insert_L. simpl.
  rewrite (comm_L (∪) {[k]} (dom m)). by rewrite (assoc_L (∪)).
Qed.

Lemma dom_localVars p (vars : list D) :
  length vars = size (Pdf._varMap p) ->
  dom (Pdf.localVars p vars) = dom (Pdf._varMap p).
Proof.
  intros Hlen. unfold Pdf.localVars. rewrite dom_foldl_pairs, dom_empty_L.
  rewrite (left_id_L ∅ (∪)), fst_zip by (rewrite length_keys; lia).
  apply set_eq. intros k.
  by rewrite elem_of_list_to_set, elem_of_keys, elem_of_dom.
Qed.

Lemma modelVars_total (lv : gmap string D) (vars : list (CfitVariable D)) :
  (forall var, var ∈ vars -> is_Some (lv !! v_name var)) ->
  exists mv, Pdf.modelVars lv vars = Returned mv /\ length mv = length vars.
Proof.
  induction vars as [|var vars IH]; intros Hall; simpl; [by exists []|].
  destruct (Hall var) as [x Hx]; [left|]. rewrite Hx.
  destruct IH as (mv & -> & Hlen); [intros ??; apply Hall; by right|].
  exists (x :: mv). simpl. by rewrite Hlen.
Qed.

(** C10. Every public append and compound assignment of the composer keeps
    the names declared by the embedded models among the keys of the
    composite's own variable and parameter maps; with that, the lookups of
    [evaluate( vars )] in the dictionary of passed values find every
    variable of every embedded model, and the broadcast of [setVars] and
    [setPars] indexes the composite's maps at existing keys only. *)
Theorem C10_models_stay_covered h p (c : PdfCall.t D)
    (Hp : PdfCall.covers h p) (Hc : PdfCall.operand_covers h c) :
  PdfCall.covers h (PdfCall.exec h c p).1 /\
  (forall model m, model ∈ Pdf._pdfs p -> h !! model = Some m ->
     (keyed_by v_name (PdfModel._varMap m) ->
        (forall vars, length vars = size (Pdf._varMap p) ->
           exists mv, Pdf.modelVars (Pdf.localVars p vars)
                                    (values (PdfModel._varMap m)) = Returned mv) /\
        (forall var, var ∈ values (PdfModel._varMap m) ->
           is_Some (Pdf._varMap p !! v_name var))) /\
     (keyed_by p_name (PdfModel._parMap m) ->
        forall par, par ∈ values (PdfModel._parMap m) ->
          is_Some (Pdf._parMap p !! p_name par))).
Proof.
  split; [by apply covers_exec|].
  intros model m Hin Hm. destruct (Hp model m Hin Hm) as [Hv Hq].
  assert (Hvar : keyed_by v_name (PdfModel._varMap m) ->
                 forall var, var ∈ values (PdfModel._varMap m) ->
                   is_Some (Pdf._varMap p !! v_name var)).
  { intros Hkey var (k & Hk)%elem_of_values.
    rewrite (Hkey k var Hk). apply elem_of_dom, Hv, elem_of_dom. eauto. }
  split.
  - intros Hkey. split; [|by apply Hvar].
    intros vars Hlen.
    destruct (modelVars_total (Pdf.localVars p vars) (values (PdfModel._varMap m)))
      as (mv & Hmv & _); [|by exists mv].
    intros var Hvar'. apply elem_of_dom. rewrite (dom_localVars p vars Hlen).
    apply elem_of_dom. by apply Hvar.
  - intros Hkey par (k & Hk)%elem_of_values.
    rewrite (Hkey k par Hk). apply elem_of_dom, Hq, elem_of_dom. eauto.
Qed.
End covers_facts.

(** *** commonVars *)

Section commonVars_facts.
Context `{Double D}.
Implicit Types (p : Pdf.t D) (h : gmap nat (PdfModel.t D)).

Lemma cv_run_app h e1 e2 s :
  Pdf.cv_run h (e1 +:+ e2) s =
    match Pdf.cv_run h e1 s with
    | Returned s' => Pdf.cv_run h e2 s'
    | Thrown e => Thrown e
    | Undefined => Undefined
    end.
Proof.
  revert s. induction e1 as [|ch e1 IH]; intros s; simpl; [done|].
  destruct (Pdf.cv_step h ch s) as [s'| |]; simpl; [apply IH|done..].
Qed.

(** The token the composer writes for a binary operation is ['b'], which
    [commonVars] takes for neither a sum nor a product: the two sets on top
    of the stack are replaced by the empty one. *)
Lemma cv_step_b h s :
  Pdf.cv_step h "b" s =
    match Pdf.calcs s with
    | x :: y :: rest =>
        Returned (Pdf.mkCv (Pdf.cv_models s) (Pdf.cv_varNames s) ([] :: rest))
    | _ => Thrown ConvolutionUnderflowError
    end.
Proof. done. Qed.

(** Whatever the operands, [commonVars] of a composite whose last call was
    the append of an operator returns no name at all, if it returns. *)
Lemma commonVars_after_oper h p oper v :
  Pdf.commonVars h (Pdf.append_oper oper p).1 = Returned v -> v = [].
Proof.
  unfold Pdf.commonVars. simpl. rewrite cv_run_app.
  destruct (Pdf.cv_run h (Pdf._expression p) _) as [s| |]; simpl; [|done..].
  rewrite cv_step_b. destruct (Pdf.calcs s) as [|x [|y rest]]; simpl; [done..|].
  destruct rest; [|done]. by intros [= <-].
Qed.
End commonVars_facts.

(** C1 (fails on the code). On the product of A(x) and B(y), built with
    [Pdf p = A; p *= B], [commonVars] returns the empty list and not the
    union {x, y}; on the sum of A(x) and C(x) it returns the empty list and
    not the shared set {x}. The model-leaf of B does not push the names of
    B either, but the names of A followed by those of B. *)
Theorem C1_commonVars_on_built_programs :
  Pdf._expression Inputs.product_AB = "mmb" /\
  Pdf.commonVars Inputs.models Inputs.product_AB = Returned [] /\
  set_union (PdfModel.varNames (Inputs.stub ["x"] 2))
            (PdfModel.varNames (Inputs.stub ["y"] 3)) = ["x"; "y"] /\
  Pdf._expression Inputs.sum_AC = "mmb" /\
  Pdf.commonVars Inputs.models Inputs.sum_AC = Returned [] /\
  set_intersection (PdfModel.varNames (Inputs.stub ["x"] 2))
                   (PdfModel.varNames (Inputs.stub ["x"] 5)) = ["x"] /\
  Pdf.cv_run Inputs.models "mm" (Pdf.mkCv [0; 1]%nat [] []) =
    Returned (Pdf.mkCv [] ["x"; "y"] [["x"; "y"]; ["x"]]).
Proof. repeat split; vm_compute; reflexivity. Qed.

(** ** The three-body decay density *)

Section decay_facts.
Context `{Double D}.
Implicit Types (d : Decay3Body.t D) (f : Function.t D).

(** *** The guard of the multiplication by a function *)

Lemma check_loop_passes d (vars : list (CfitVariable D)) :
  (forall var, var ∈ vars -> is_Some (Decay3Body._varMap d !! v_name var)) ->
  for_each vars (fun var =>
    do d' <- get;
    if count (Decay3Body._varMap d') (v_name var) then ret tt
    else throw DependencyError) d = (d, Returned tt).
Proof.
  induction vars as [|var vars IH]; intros Hall; simpl; [done|].
  unfold bind at 1. unfold bind at 1, get.
  assert (count (Decay3Body._varMap d) (v_name var) = true) as ->
    by (apply count_true, Hall; left).
  unfold ret at 1. apply IH. intros ??. apply Hall. by right.
Qed.

Lemma check_loop_throws d (vars : list (CfitVariable D)) var :
  var ∈ vars -> Decay3Body._varMap d !! v_name var = None ->
  for_each vars (fun var =>
    do d' <- get;
    if count (Decay3Body._varMap d') (v_name var) then ret tt
    else throw DependencyError) d = (d, Thrown DependencyError).
Proof.
  intros Hin Hnone. induction vars as [|var' vars IH]; simpl.
  { by apply not_elem_of_nil in Hin. }
  unfold bind at 1. unfold bind at 1, get.
  destruct (count (Decay3Body._varMap d) (v_name var')) eqn:Hc.
  - unfold ret at 1. apply IH. apply elem_of_cons in Hin as [->|Hin]; [|done].
    apply count_true in Hc. rewrite Hnone in Hc. by destruct Hc.
  - done.
Qed.

Lemma mul_assign_throws d f k var :
  Function._varMap f !! k = Some var ->
  Decay3Body._varMap d !! v_name var = None ->
  Decay3Body.mul_assign f d = (d, Thrown DependencyError).
Proof.
  intros Hk Hnone. unfold Decay3Body.mul_assign, bind at 1.
  unfold Decay3Body.check_depends.
  rewrite (check_loop_throws d _ var); [done| |done].
  apply elem_of_values. eauto.
Qed.

(** The composite after a multiplication that passes the guard. *)
Lemma mul_assign_returns d f :
  (forall var, var ∈ values (Function._varMap f) ->
     is_Some (Decay3Body._varMap d !! v_name var)) ->
  Decay3Body.mul_assign f d =
    ((Decay3Body.cache
        (Decay3Body.set_funcs (Decay3Body._funcs d ++ [f])
           (Decay3Body.set_parMap
              (Decay3Body._parMap d ∪ Function._parMap f) d))).1,
     Returned tt).
Proof.
  intros Hall. unfold Decay3Body.mul_assign, bind at 1.
  unfold Decay3Body.check_depends. rewrite (check_loop_passes d _ Hall).
  unfold bind, modify. simpl. by rewrite insert_range_entries.
Qed.

(** C4. Multiplying the density by a function one of whose variables is not
    a variable of the density throws "Cannot multiply a Decay3Body pdf model
    by a function that depends on other variables." and the density is the
    one before the call: same auxiliary functions, same parameter map, same
    normalization. *)
Theorem C4_foreign_variable_is_rejected d f k var
    (Hvar : Function._varMap f !! k = Some var)
    (Hforeign : Decay3Body._varMap d !! v_name var = None) :
  Decay3Body.mul_assign f d = (d, Thrown DependencyError) /\
  Decay3Body._funcs (Decay3Body.mul_assign f d).1 = Decay3Body._funcs d /\
  Decay3Body._parMap (Decay3Body.mul_assign f d).1 = Decay3Body._parMap d /\
  Decay3Body._norm (Decay3Body.mul_assign f d).1 = Decay3Body._norm d /\
  Decay3Body.mul d f = Thrown DependencyError.
Proof.
  unfold Decay3Body.mul.
  rewrite (mul_assign_throws d f k var Hvar Hforeign). done.
Qed.

(** C5 (as the code has it). When every variable of the function is a
    variable of the density, the multiplication returns; the parameters of
    the function are merged into the parameter map of the density, an entry
    the density already has under the same name being kept; the function is
    appended to the auxiliary functions; and the normalization is the one
    [cache] computes for the density so updated. *)
Theorem C5_parameters_merged_keeping_own d f
    (Hdep : forall var, var ∈ values (Function._varMap f) ->
              is_Some (Decay3Body._varMap d !! v_name var)) :
  exists d',
    Decay3Body.mul_assign f d = (d', Returned tt) /\
    Decay3Body.mul d f = Returned d' /\
    (forall name, Decay3Body._parMap d' !! name =
       match Decay3Body._parMap d !! name with
       | Some own => Some own
       | None => Function._parMap f !! name
       end) /\
    Decay3Body._funcs d' = Decay3Body._funcs d ++ [f] /\
    d' = (Decay3Body.cache
            (Decay3Body.set_funcs (Decay3Body._funcs d ++ [f])
               (Decay3Body.set_parMap
                  (Decay3Body._parMap d ∪ Function._parMap f) d))).1.
Proof.
  eexists. unfold Decay3Body.mul. rewrite (mul_assign_returns d f Hdep).
  repeat split. intros name. simpl. rewrite lookup_union.
  destruct (Decay3Body._parMap d !! name), (Function._parMap f !! name); done.
Qed.

(** C8 (as the code has it). The three-body decay density evaluates a
    vector of two values (deriving the third from the mass sum) as well as
    one of three, and throws "Decay3Body can only take either 2 or 3
    arguments." for every other length; the composite throws "Number of
    arguments passed does not match number of required arguments." whenever
    the length of the vector is not its number of variables. *)
Theorem C8_decay_takes_two_or_three d (vars : list D)
    (h : gmap nat (PdfModel.t D)) (p : Pdf.t D) :
  (((length vars = 2 \/ length vars = 3) /\
      exists v, Decay3Body.evaluate d vars = Returned v)
   \/ (length vars <> 2 /\ length vars <> 3 /\
       Decay3Body.evaluate d vars = Thrown Decay3BodyArity))
  /\
  (size (Pdf._varMap p) = length vars \/
   Pdf.evaluate_vars h p vars = Thrown ArgumentCountMismatch).
Proof.
  split.
  - destruct vars as [|v0 [|v1 [|v2 [|v3 vars]]]]; simpl;
      first [ left; split; [lia|eauto] | right; repeat split; (lia || done) ].
  - unfold Pdf.evaluate_vars. case_decide; [by right|by left].
Qed.
End decay_facts.

(** ** Running the decay density on concrete inputs *)

(** *** Signs in the exact arithmetic *)

Lemma positive_nonnegative x : positive x -> nonnegative x.
Proof.
  intros (a & -> & Ha). exists a. split; [done|]. by apply Qlt_le_weak.
Qed.

Lemma exact_add_nonnegative x y :
  nonnegative x -> nonnegative y -> nonnegative (d_add x y).
Proof.
  intros (a & -> & Ha) (b & -> & Hb). eexists. split; [done|].
  rewrite Qred_correct. rewrite <- (Qplus_0_r 0). by apply Qplus_le_compat.
Qed.

Lemma exact_add_positive_r x y :
  nonnegative x -> positive y -> positive (d_add x y).
Proof.
  intros (a & -> & Ha) (b & -> & Hb). eexists. split; [done|].
  rewrite Qred_correct. rewrite <- (Qplus_0_r 0). rewrite (Qplus_comm a b).
  by apply Qplus_lt_le_compat.
Qed.

Lemma exact_add_positive_l x y :
  positive x -> nonnegative y -> positive (d_add x y).
Proof.
  intros (a & -> & Ha) (b & -> & Hb). eexists. split; [done|].
  rewrite Qred_correct. rewrite <- (Qplus_0_r 0).
  by apply Qplus_lt_le_compat.
Qed.

Lemma exact_mul_positive x y : positive x -> positive y -> positive (d_mul x y).
Proof.
  intros (a & -> & Ha) (b & -> & Hb). eexists. split; [done|].
  rewrite Qred_correct. by apply Qmult_lt_0_compat.
Qed.

Lemma exact_div_positive x y : positive x -> positive y -> positive (d_div x y).
Proof.
  intros (a & -> & Ha) (b & -> & Hb). simpl.
  destruct (Qeq_bool b 0) eqn:E.
  - apply Qeq_bool_eq in E. rewrite E in Hb. by apply Qlt_irrefl in Hb.
  - eexists. split; [done|]. rewrite Qred_correct.
    apply Qmult_lt_0_compat; [done|]. by apply Qinv_lt_0_compat.
Qed.

Lemma exact_zero_ltb_positive x : positive x -> d_ltb d_zero x = true.
Proof.
  intros (a & -> & Ha). simpl. apply negb_true_iff.
  destruct (Qle_bool a (inject_Z 0)) eqn:E; [|done].
  apply Qle_bool_iff in E. by apply Qlt_not_le in Ha.
Qed.

Lemma positive_not_zero x : positive x -> x <> d_zero.
Proof.
  intros (a & -> & Ha) [= ->]. by apply Qlt_irrefl in Ha.
Qed.

(** *** Loops that accumulate *)

Section accumulate.
Context {A B : Type} (g : A -> B -> A).

Lemma foldl_keeps (N : A -> Prop) (l : list B) acc :
  (forall acc j, j ∈ l -> N acc -> N (g acc j)) -> N acc -> N (foldl g acc l).
Proof.
  revert acc. induction l as [|j l IH]; intros acc Hg Hacc; simpl; [done|].
  apply IH; [intros ????; apply Hg; [by right|done]|]. apply Hg; [left|done].
Qed.

Lemma foldl_reaches (N P : A -> Prop) (l : list B) acc j0 :
  j0 ∈ l ->
  (forall acc j, j ∈ l -> N acc -> N (g acc j)) ->
  (forall acc j, j ∈ l -> P acc -> P (g acc j)) ->
  (forall acc, N acc -> P (g acc j0)) ->
  N acc -> P (foldl g acc l).
Proof.
  intros Hin HN HP Hhit. revert acc.
  induction l as [|j l IH]; intros acc Hacc; simpl.
  { by apply not_elem_of_nil in Hin. }
  apply elem_of_cons in Hin as [<-|Hin].
  - apply (foldl_keeps P l); [|by apply Hhit].
    intros ????. apply HP; [by right|done].
  - apply IH; [done|..].
    + intros ????. apply HN; [by right|done].
    + intros ????. apply HP; [by right|done].
    + apply HN; [left|done].
Qed.
End accumulate.

(** *** The grid sums of a density with the flat amplitude *)

Section flat_density.
Implicit Types (ps : PhaseSpace.t exact) (n : exact).

Lemma density_flat n ps x y z :
  Decay3Body.density (Inputs.with_norm n ps) x y z = Some 1%Q.
Proof. reflexivity. Qed.

Lemma specified_bin_flat n ps min12 step12 min13 step13 mSqSum binX binY sum :
  Decay3Body.specified_bin (Inputs.with_norm n ps)
    min12 step12 min13 step13 mSqSum binX binY sum =
  if PhaseSpace.contains ps
       (Inputs.center min12 step12 binX) (Inputs.center min13 step13 binY)
       (d_sub (d_sub mSqSum (Inputs.center min12 step12 binX))
              (Inputs.center min13 step13 binY))
  then d_add sum (Some 1%Q) else sum.
Proof. reflexivity. Qed.

(** [cache] sums what the specification sums, with the lower bound and the
    step of m12 on both axes. *)
Lemma cache_sum_as_specified `{Double D} (d : Decay3Body.t D) min step mSqSum :
  Decay3Body.cache_sum d min step mSqSum =
  Decay3Body.specified_sum d min step min step mSqSum.
Proof.
  unfold Decay3Body.cache_sum, Decay3Body.specified_sum,
    Decay3Body.cache_bin, Decay3Body.specified_bin.
  reflexivity.
Qed.

(** When the bounds of m13 are those of m12 (and the square of the step is
    its product with itself), what [cache] stores is the specified
    normalization. *)
Lemma cache_as_specified_on_equal_bounds `{Double D} (d : Decay3Body.t D) :
  PhaseSpace.mSqMin (Decay3Body._ps d) 1 = PhaseSpace.mSq12min (Decay3Body._ps d) ->
  PhaseSpace.mSqMax (Decay3Body._ps d) 1 = PhaseSpace.mSq12max (Decay3Body._ps d) ->
  (forall x : D, d_pow x (d_of_int 2) = d_mul x x) ->
  Decay3Body._norm (Decay3Body.cache d).1 = Decay3Body.specified_norm d.
Proof.
  intros Hmin Hmax Hpow. unfold Decay3Body.cache, Decay3Body.specified_norm.
  cbv zeta. cbn [fst Decay3Body._norm Decay3Body.set_norm].
  rewrite Hmin, Hmax, Hpow, cache_sum_as_specified. reflexivity.
Qed.

Lemma specified_sum_rejected n ps min12 step12 min13 step13 mSqSum :
  (forall binX binY, binX ∈ seqZ 0 Decay3Body.nBins ->
     binY ∈ seqZ 0 Decay3Body.nBins ->
     PhaseSpace.contains ps
       (Inputs.center min12 step12 binX) (Inputs.center min13 step13 binY)
       (d_sub (d_sub mSqSum (Inputs.center min12 step12 binX))
              (Inputs.center min13 step13 binY)) = false) ->
  Decay3Body.specified_sum (Inputs.with_norm n ps)
    min12 step12 min13 step13 mSqSum = d_zero.
Proof.
  unfold Decay3Body.specified_sum.
  generalize (seqZ 0 Decay3Body.nBins). intros bins Hout.
  apply (foldl_keeps _ (fun sum => sum = d_zero)); [|done].
  intros sum binX HX ->.
  apply (foldl_keeps _ (fun sum => sum = d_zero)); [|done].
  intros sum binY HY ->. rewrite specified_bin_flat. by rewrite Hout.
Qed.

Lemma specified_bin_keeps_nonnegative n ps min12 step12 min13 step13 mSqSum
    binX binY sum :
  nonnegative sum ->
  nonnegative (Decay3Body.specified_bin (Inputs.with_norm n ps)
                 min12 step12 min13 step13 mSqSum binX binY sum).
Proof.
  intros Hs. rewrite specified_bin_flat. destruct (PhaseSpace.contains _ _ _ _); [|done].
  apply exact_add_nonnegative; [done|]. exists 1%Q. done.
Qed.

Lemma specified_bin_keeps_positive n ps min12 step12 min13 step13 mSqSum
    binX binY sum :
  positive sum ->
  positive (Decay3Body.specified_bin (Inputs.with_norm n ps)
              min12 step12 min13 step13 mSqSum binX binY sum).
Proof.
  intros Hs. rewrite specified_bin_flat. destruct (PhaseSpace.contains _ _ _ _); [|done].
  apply exact_add_positive_l; [done|]. exists 1%Q. done.
Qed.

Lemma specified_sum_positive n ps min12 step12 min13 step13 mSqSum binX binY :
  binX ∈ seqZ 0 Decay3Body.nBins -> binY ∈ seqZ 0 Decay3Body.nBins ->
  PhaseSpace.contains ps
    (Inputs.center min12 step12 binX) (Inputs.center min13 step13 binY)
    (d_sub (d_sub mSqSum (Inputs.center min12 step12 binX))
           (Inputs.center min13 step13 binY)) = true ->
  positive (Decay3Body.specified_sum (Inputs.with_norm n ps)
              min12 step12 min13 step13 mSqSum).
Proof.
  unfold Decay3Body.specified_sum.
  generalize (seqZ 0 Decay3Body.nBins). intros bins HX HY Hin.
  apply (foldl_reaches _ nonnegative positive _ _ binX HX).
  - intros sum i _ Hs. apply (foldl_keeps _ nonnegative); [|done].
    intros ????. by apply specified_bin_keeps_nonnegative.
  - intros sum i _ Hs. apply (foldl_keeps _ positive); [|done].
    intros ????. by apply specified_bin_keeps_positive.
  - intros sum Hs. apply (foldl_reaches _ nonnegative positive _ _ binY HY).
    + intros ????. by apply specified_bin_keeps_nonnegative.
    + intros ????. by apply specified_bin_keeps_positive.
    + intros sum' Hs'. rewrite specified_bin_flat, Hin.
      apply exact_add_positive_r; [done|]. exists 1%Q. done.
    + done.
  - exists 0%Q. done.
Qed.

(** The density the constructor leaves. *)
Lemma decay_unfold ps :
  Inputs.decay ps =
  Inputs.with_norm
    (d_mul (Decay3Body.cache_sum (Inputs.uncached ps) (PhaseSpace.mSq12min ps)
              (Inputs.step ps) (PhaseSpace.mSqSum ps))
           (d_pow (Inputs.step ps) (d_of_int 2))) ps.
Proof.
  unfold Inputs.decay, Decay3Body.construct, Decay3Body.cache. cbv zeta.
  unfold Inputs.with_norm, Inputs.uncached, Inputs.step.
  cbn [fst Decay3Body._ps]. reflexivity.
Qed.

Lemma contains_phase_space m1 m2 m3 mM mSq12 mSq13 mSq23 :
  PhaseSpace.contains (Inputs.phase_space m1 m2 m3 mM) mSq12 mSq13 mSq23 =
  Inputs.within (PhaseSpace.mSqMin (Inputs.phase_space m1 m2 m3 mM) 0)
                (PhaseSpace.mSqMax (Inputs.phase_space m1 m2 m3 mM) 0) mSq12 &&
  Inputs.within (PhaseSpace.mSqMin (Inputs.phase_space m1 m2 m3 mM) 1)
                (PhaseSpace.mSqMax (Inputs.phase_space m1 m2 m3 mM) 1) mSq13 &&
  Inputs.within (PhaseSpace.mSqMin (Inputs.phase_space m1 m2 m3 mM) 2)
                (PhaseSpace.mSqMax (Inputs.phase_space m1 m2 m3 mM) 2) mSq23.
Proof. reflexivity. Qed.
End flat_density.

(** *** The normalization when m12 and m13 range over different intervals *)

Lemma norm_with_norm n ps : Decay3Body._norm (Inputs.with_norm n ps) = n.
Proof. reflexivity. Qed.

Lemma ps_with_norm n ps : Decay3Body._ps (Inputs.with_norm n ps) = ps.
Proof. reflexivity. Qed.

Lemma elem_of_bins (bin : Z) :
  (0 <= bin < 400)%Z -> bin ∈ seqZ 0 Decay3Body.nBins.
Proof. intros Hb. apply elem_of_seqZ. unfold Decay3Body.nBins. lia. Qed.

(** With daughters of masses 1, 1, 10 and a mother of mass 13, every bin
    center [cache] visits has its m13 in [4, 9], below the least m13 of the
    decay, 121. *)
Lemma heavy_daughter_bins_rejected binX binY (ps := Inputs.heavy_daughter) :
  binX ∈ seqZ 0 Decay3Body.nBins -> binY ∈ seqZ 0 Decay3Body.nBins ->
  PhaseSpace.contains ps
    (Inputs.center (PhaseSpace.mSq12min ps) (Inputs.step ps) binX)
    (Inputs.center (PhaseSpace.mSq12min ps) (Inputs.step ps) binY)
    (d_sub (d_sub (PhaseSpace.mSqSum ps)
                  (Inputs.center (PhaseSpace.mSq12min ps) (Inputs.step ps) binX))
           (Inputs.center (PhaseSpace.mSq12min ps) (Inputs.step ps) binY)) = false.
Proof.
  intros _ HY. unfold ps at 1, Inputs.heavy_daughter.
  rewrite contains_phase_space. fold Inputs.heavy_daughter. fold ps.
  assert (Hall : forallb (fun bin =>
            negb (Inputs.within (PhaseSpace.mSqMin ps 1) (PhaseSpace.mSqMax ps 1)
                    (Inputs.center (PhaseSpace.mSq12min ps) (Inputs.step ps) bin)))
            (seqZ 0 Decay3Body.nBins) = true) by (vm_compute; reflexivity).
  rewrite forallb_forall in Hall. apply list_elem_of_In, Hall in HY.
  apply negb_true_iff in HY. rewrite HY.
  by rewrite andb_false_r.
Qed.

Lemma heavy_daughter_specified_positive n :
  positive (Decay3Body.specified_norm
              (Inputs.with_norm n Inputs.heavy_daughter)).
Proof.
  unfold Decay3Body.specified_norm. rewrite !ps_with_norm.
  apply exact_mul_positive.
  - apply (specified_sum_positive _ _ _ _ _ _ _ 200 200);
      [by apply elem_of_bins..|]. vm_compute. reflexivity.
  - eexists. split; [vm_compute; reflexivity|reflexivity].
Qed.

(** C2 (fails on the code). For a decay into daughters of masses 1, 1, 10
    from a mother of mass 13, with amplitude 1 everywhere, the normalization
    the constructor stores through [cache] is zero, while the midpoint rule
    over the bounding rectangle with the bounds of m13 on the m13 axis is
    positive: [cache] takes the lower bound and the step of m12 for both
    axes. *)
Theorem C2_cache_steps_m13_with_the_bounds_of_m12 :
  Decay3Body._norm Inputs.decay_asym = d_zero /\
  positive (Decay3Body.specified_norm Inputs.decay_asym) /\
  Decay3Body._norm Inputs.decay_asym
    <> Decay3Body.specified_norm Inputs.decay_asym.
Proof.
  assert (Hnorm : Decay3Body._norm Inputs.decay_asym = d_zero).
  { unfold Inputs.decay_asym. rewrite decay_unfold, norm_with_norm.
    rewrite cache_sum_as_specified.
    change (Inputs.uncached ?ps) with (Inputs.with_norm d_one ps).
    rewrite specified_sum_rejected by apply heavy_daughter_bins_rejected.
    vm_compute. reflexivity. }
  assert (Hspec : positive (Decay3Body.specified_norm Inputs.decay_asym)).
  { unfold Inputs.decay_asym. rewrite decay_unfold.
    apply heavy_daughter_specified_positive. }
  split; [exact Hnorm|]. split; [exact Hspec|].
  rewrite Hnorm. intros Heq. apply (positive_not_zero _ Hspec).
  symmetry. exact Heq.
Qed.

(** *** A candidate that is accepted is returned *)

Section generate_facts.
Context `{Double D} `{RandomSource D R}.

Lemma generate_loop_accepts (d : Decay3Body.t D) min12 max12 min13 max13 mSqSum
    name12 name13 name23 count values (w : Decay3Body.world D R)
    mSq12 r1 mSq13 r2 u r3 :
  flat (Decay3Body.random w) min12 max12 = (mSq12, r1) ->
  flat r1 min13 max13 = (mSq13, r2) ->
  flat r2 d_zero (Decay3Body._maxPdf d) = (u, r3) ->
  d_ltb u (Decay3Body.evaluate3 d mSq12 mSq13
             (d_sub (d_sub mSqSum mSq12) mSq13)) = true ->
  (Decay3Body.generate_loop d min12 max12 min13 max13 mSqSum
     name12 name13 name23 (S count) values w).1 =
  assign (assign (assign values name12 mSq12) name13 mSq13)
         name23 (d_sub (d_sub mSqSum mSq12) mSq13).
Proof.
  intros H1 H2 H3 Hacc. simpl. rewrite H1, H2, H3, Hacc. done.
Qed.
End generate_facts.

Lemma equal_daughters_norm_positive :
  exists n, Inputs.decay_sym = Inputs.with_norm n Inputs.equal_daughters
            /\ positive n.
Proof.
  eexists. split; [apply decay_unfold|].
  apply exact_mul_positive.
  - rewrite cache_sum_as_specified.
    change (Inputs.uncached ?ps) with (Inputs.with_norm d_one ps).
    apply (specified_sum_positive _ _ _ _ _ _ _ 200 200);
      [by apply elem_of_bins..|]. vm_compute. reflexivity.
  - eexists. split; [vm_compute; reflexivity|reflexivity].
Qed.

Lemma generate_outside n :
  positive n ->
  (Decay3Body.generate (Inputs.with_norm n Inputs.equal_daughters)
     (Decay3Body.mkWorld [Some (1 # 12); Some (1 # 12); Some 0%Q] [])).1 =
  {[ "mSq12" := Inputs.q 5; "mSq13" := Inputs.q 5; "mSq23" := Inputs.q 18 ]}.
Proof.
  intros Hn. unfold Decay3Body.generate.
  replace Decay3Body.attempts with (S (Z.to_nat 9999)) by reflexivity.
  eapply eq_trans.
  { eapply generate_loop_accepts.
    - lazy. reflexivity.
    - lazy. reflexivity.
    - lazy. reflexivity.
    - change (d_ltb d_zero (d_div (Some 1%Q) n) = true).
      apply exact_zero_ltb_positive, exact_div_positive; [|exact Hn].
      exists 1%Q. split; reflexivity. }
  vm_compute. reflexivity.
Qed.

(** C3 (fails on the code). For a decay into three daughters of mass 1 from
    a mother of mass 5, with amplitude 1 everywhere, and a random source
    whose first draws are 1/12, 1/12 and 0, [generate] returns the point
    (5, 5, 18) at its first attempt: it is not the all-zero point, and the
    containment test of the geometry rejects it (m23 is at most 16). *)
Theorem C3_generate_returns_point_outside :
  let w := Decay3Body.mkWorld [Some (1 # 12); Some (1 # 12); Some 0%Q] [] in
  let point := (Decay3Body.generate Inputs.decay_sym w).1 in
  point = {[ "mSq12" := Inputs.q 5; "mSq13" := Inputs.q 5; "mSq23" := Inputs.q 18 ]} /\
  PhaseSpace.contains Inputs.equal_daughters
    (Inputs.q 5) (Inputs.q 5) (Inputs.q 18) = false /\
  point <> {[ "mSq12" := Inputs.q 0; "mSq13" := Inputs.q 0; "mSq23" := Inputs.q 0 ]}.
Proof.
  intros w point. subst w point.
  destruct equal_daughters_norm_positive as (n & -> & Hn).
  rewrite (generate_outside n Hn).
  split; [done|]. split; [vm_compute; reflexivity|].
  intros Heq. apply (f_equal (fun m => m !! "mSq12")) in Heq.
  vm_compute in Heq. discriminate.
Qed.

(** Whatever [generate_loop] returns is the all-zero point written over the
    last candidate, or a candidate the accept-reject draw was below the
    density of; the containment test of the geometry plays no part. *)
Lemma generate_loop_returns `{Double D} `{RandomSource D R}
    (d : Decay3Body.t D) min12 max12 min13 max13 mSqSum
    name12 name13 name23 count values (w : Decay3Body.world D R) :
  let point := (Decay3Body.generate_loop d min12 max12 min13 max13 mSqSum
                  name12 name13 name23 count values w).1 in
  (exists last,
     point = assign (assign (assign last name12 d_zero) name13 d_zero)
                    name23 d_zero)
  \/ (exists before mSq12 mSq13 u,
        point = assign (assign (assign before name12 mSq12) name13 mSq13)
                       name23 (d_sub (d_sub mSqSum mSq12) mSq13)
        /\ d_ltb u (Decay3Body.evaluate3 d mSq12 mSq13
                      (d_sub (d_sub mSqSum mSq12) mSq13)) = true).
Proof.
  revert values w. induction count as [|count IH]; intros values w; simpl.
  { left. by exists values. }
  destruct (flat (Decay3Body.random w) min12 max12) as [mSq12 r1].
  destruct (flat r1 min13 max13) as [mSq13 r2].
  destruct (flat r2 d_zero (Decay3Body._maxPdf d)) as [u r3].
  destruct (d_ltb u _) eqn:Hacc.
  - right. exists values, mSq12, mSq13, u. done.
  - apply IH.
Qed.

(** ** The statements at concrete inputs *)

Lemma varMap_decay ps : Decay3Body._varMap (Inputs.decay ps) = Inputs.decay_vars.
Proof. reflexivity. Qed.

Lemma parMap_decay ps :
  Decay3Body._parMap (Inputs.decay ps) = {[ "w" := Inputs.par "w" 1 ]}.
Proof. reflexivity. Qed.

Lemma efficiency_depends_on_own (var : CfitVariable exact) :
  var ∈ values (Function._varMap Inputs.efficiency) ->
  is_Some (Decay3Body._varMap Inputs.decay_sym !! v_name var).
Proof.
  intros (k & Hk)%elem_of_values.
  change (({[ "mSq12" := Inputs.var "mSq12" ]} : gmap string _) !! k = Some var) in Hk.
  apply lookup_singleton_Some in Hk as [_ <-].
  unfold Inputs.decay_sym. rewrite varMap_decay. vm_compute. eauto.
Qed.

(** C4 at the decay with three equal daughters and a function of [t]. *)
Lemma C4_witness :
  Decay3Body.mul_assign Inputs.resolution Inputs.decay_sym
    = (Inputs.decay_sym, Thrown DependencyError).
Proof.
  assert (Hvar : Function._varMap Inputs.resolution !! "t" = Some (Inputs.var "t"))
    by (vm_compute; reflexivity).
  assert (Hforeign : Decay3Body._varMap Inputs.decay_sym
                       !! v_name (Inputs.var "t") = None).
  { unfold Inputs.decay_sym. rewrite varMap_decay. vm_compute. reflexivity. }
  exact (proj1 (C4_foreign_variable_is_rejected
                  Inputs.decay_sym Inputs.resolution "t" (Inputs.var "t")
                  Hvar Hforeign)).
Defined.

(** C5 at the same decay and an efficiency function of mSq12. *)
Lemma C5_witness :
  exists d', Decay3Body.mul_assign Inputs.efficiency Inputs.decay_sym
               = (d', Returned tt)
             /\ Decay3Body._funcs d' = [Inputs.efficiency].
Proof.
  destruct (C5_parameters_merged_keeping_own
              Inputs.decay_sym Inputs.efficiency efficiency_depends_on_own)
    as (d' & Hret & _ & _ & Hfuncs & _).
  exists d'. split; [exact Hret|exact Hfuncs].
Defined.

(** C5 (fails on the code). The density has a parameter [w] of value 1 and
    the function a parameter [w] of value 2: after the multiplication the
    density still has 1 under [w], so the entry of the function has not
    overwritten it. *)
Lemma C5_collision_keeps_the_entry_of_the_density :
  ~ (forall name par, Function._parMap Inputs.efficiency !! name = Some par ->
       Decay3Body._parMap
         (Decay3Body.mul_assign Inputs.efficiency Inputs.decay_sym).1 !! name
       = Some par).
Proof.
  intros Hclaim. specialize (Hclaim "w" (Inputs.par "w" 2) eq_refl).
  rewrite (mul_assign_returns _ _ efficiency_depends_on_own) in Hclaim.
  change (Decay3Body._parMap (Decay3Body.cache ?d).1) with (Decay3Body._parMap d)
    in Hclaim.
  change ((Decay3Body._parMap Inputs.decay_sym
             ∪ Function._parMap Inputs.efficiency) !! "w"
          = Some (Inputs.par "w" 2)) in Hclaim.
  unfold Inputs.decay_sym in Hclaim. rewrite parMap_decay in Hclaim.
  vm_compute in Hclaim. discriminate.
Qed.

(** C8 (fails on the code). The decay density declares the three variables
    mSq12, mSq13, mSq23 and evaluates a vector of two values. *)
Lemma C8_decay_evaluates_two_values :
  ~ (forall v, Decay3Body.evaluate Inputs.decay_sym [Inputs.q 5; Inputs.q 6]
               = Returned v ->
       length [Inputs.q 5; Inputs.q 6] = size (Decay3Body._varMap Inputs.decay_sym)).
Proof.
  intros Hclaim. specialize (Hclaim _ eq_refl).
  unfold Inputs.decay_sym in Hclaim. rewrite varMap_decay in Hclaim.
  vm_compute in Hclaim. discriminate.
Qed.

(** C6 at A(x): the sum with C(x) goes through, the sum with the composite
    of B(y) throws. *)
Lemma C6_witness :
  (Pdf.add_assign_model Inputs.models 2 Inputs.pdf_A).2 = Returned tt /\
  Pdf.add_assign_pdf Inputs.pdf_B Inputs.pdf_A
    = (Inputs.pdf_A, Thrown IncompatibleVariablesError).
Proof.
  destruct (C6_sum_needs_equal_names Inputs.models Inputs.pdf_A 2
              (Inputs.stub ["x"] 5) Inputs.pdf_B eq_refl)
    as [[(_ & p' & -> & _)|(Hne & _)] [(Heq & _)|(_ & Hthrow)]].
  - vm_compute in Heq. discriminate.
  - split; [reflexivity|exact Hthrow].
  - vm_compute in Heq. discriminate.
  - exfalso. apply Hne. vm_compute. reflexivity.
Defined.

Lemma x_in_pdf_A : "x" ∈ dom (Pdf._varMap Inputs.pdf_A).
Proof. apply elem_of_dom. vm_compute. eauto. Qed.

(** C7 at A(x): the product with B(y) goes through, the product with the
    composite of A(x) itself throws. *)
Lemma C7_witness :
  (Pdf.mul_assign_model Inputs.models 1 Inputs.pdf_A).2 = Returned tt /\
  Pdf.mul_assign_pdf Inputs.pdf_A Inputs.pdf_A
    = (Inputs.pdf_A, Thrown OverlappingVariablesError).
Proof.
  destruct (C7_product_needs_disjoint_names Inputs.models Inputs.pdf_A 1
              (Inputs.stub ["y"] 3) Inputs.pdf_A eq_refl)
    as [[(_ & p' & -> & _)|(Hne & _)] [(Hdisj & _)|(_ & Hthrow)]].
  - exfalso. apply (Hdisj "x"); exact x_in_pdf_A.
  - split; [reflexivity|exact Hthrow].
  - exfalso. apply (Hdisj "x"); exact x_in_pdf_A.
  - exfalso. apply Hne. apply set_intersection_keys_nil. vm_compute. reflexivity.
Defined.

(** C9 at the product of A(x) = 2 and B(y) = 3 divided by the constant 0. *)
Lemma C9_witness :
  Pdf.evaluate Inputs.models (Pdf.div_assign_ctnt d_zero Inputs.product_AB).1
    = Returned (d_div (Inputs.q 6) d_zero).
Proof.
  assert (Hp : Pdf.run Inputs.models
                 (fun m => PdfModel.evaluate m (PdfModel._varMap m)
                                             (PdfModel._parMap m))
                 Inputs.product_AB (Pdf._expression Inputs.product_AB)
                 (Pdf.start Inputs.product_AB)
               = Returned (Pdf.mkMachine [] [] [] [] [Inputs.q 6]))
    by (vm_compute; reflexivity).
  exact (proj2 (proj2 (C9_division_is_unguarded Inputs.models Inputs.product_AB
                         (Inputs.q 6) d_zero Hp))).
Defined.

Lemma covers_product_AB : PdfCall.covers Inputs.models Inputs.product_AB.
Proof.
  apply (covers_exec Inputs.models (PdfCall.Mul_assign_model 1) I).
  apply (covers_exec Inputs.models (PdfCall.Assign_model 0) I).
  apply covers_empty.
Qed.

(** C10 at the product of A(x) and B(y), to which C(x) is appended. *)
Lemma C10_witness :
  PdfCall.covers Inputs.models
    (PdfCall.exec Inputs.models (PdfCall.Append_model 2) Inputs.product_AB).1.
Proof.
  exact (proj1 (C10_models_stay_covered Inputs.models Inputs.product_AB
                  (PdfCall.Append_model 2) covers_product_AB I)).
Defined.

(** * Further properties *)

(** ** The decay density *)

Section more_decay.
Context `{Double D}.
Implicit Types (d : Decay3Body.t D).

(** X1. The two-argument [evaluate] is the three-argument one at the third
    squared mass that the mass sum leaves, and so is [evaluate( vars )] on
    two values with respect to three. *)
Theorem evaluate_two_is_three_on_the_constraint d (mSq12 mSq13 : D) :
  let mSq23 := d_sub (d_sub (PhaseSpace.mSqSum (Decay3Body._ps d)) mSq12) mSq13 in
  Decay3Body.evaluate2 d mSq12 mSq13 = Decay3Body.evaluate3 d mSq12 mSq13 mSq23 /\
  Decay3Body.evaluate d [mSq12; mSq13] = Decay3Body.evaluate d [mSq12; mSq13; mSq23].
Proof. split; reflexivity. Qed.

Lemma cache_sum_set_norm n d min step mSqSum :
  Decay3Body.cache_sum (Decay3Body.set_norm n d) min step mSqSum =
  Decay3Body.cache_sum d min step mSqSum.
Proof.
  unfold Decay3Body.cache_sum, Decay3Body.cache_bin, Decay3Body.density,
    Decay3Body.evaluateFuncs.
  cbn [Decay3Body.set_norm Decay3Body._ps Decay3Body._amp Decay3Body._funcs
       Decay3Body.getVar].
  reflexivity.
Qed.

Lemma cache_set_norm n d : Decay3Body.cache (Decay3Body.set_norm n d) = Decay3Body.cache d.
Proof.
  unfold Decay3Body.cache. cbv zeta.
  cbn [Decay3Body.set_norm Decay3Body._ps]. rewrite cache_sum_set_norm.
  reflexivity.
Qed.

(** X2. [cache] reads nothing of the normalization it replaces: calling it
    twice in a row gives what calling it once gives, whatever [_norm] held
    before, and it leaves every other member as it was. *)
Theorem cache_is_idempotent d :
  Decay3Body.cache (Decay3Body.cache d).1 = Decay3Body.cache d /\
  (forall n, Decay3Body.cache (Decay3Body.set_norm n d) = Decay3Body.cache d) /\
  Decay3Body._varMap (Decay3Body.cache d).1 = Decay3Body._varMap d /\
  Decay3Body._parMap (Decay3Body.cache d).1 = Decay3Body._parMap d /\
  Decay3Body._funcs (Decay3Body.cache d).1 = Decay3Body._funcs d /\
  Decay3Body._maxPdf (Decay3Body.cache d).1 = Decay3Body._maxPdf d /\
  (Decay3Body.cache d).2 = Returned tt.
Proof.
  split; [|split; [exact (fun n => cache_set_norm n d)|repeat split]].
  unfold Decay3Body.cache at 2. cbv zeta. cbn [fst]. apply cache_set_norm.
Qed.

(** X3. The product of the auxiliary functions is never below zero, the
    functions returning what they may, as long as zero is not below zero in
    the arithmetic. *)
Theorem evaluateFuncs_is_not_negative d (mSq12 mSq13 mSq23 : D)
    (Hirrefl : d_ltb d_zero d_zero = false) :
  d_ltb (Decay3Body.evaluateFuncs d mSq12 mSq13 mSq23) d_zero = false.
Proof.
  unfold Decay3Body.evaluateFuncs, std_max. cbv zeta.
  destruct (d_ltb (foldl _ _ _).1 d_zero) eqn:Hneg; [exact Hirrefl|exact Hneg].
Qed.
End more_decay.

(** X3 on the decay whose second function is -1 everywhere: the product
    is 0. *)
Lemma evaluateFuncs_is_not_negative_witness :
  Decay3Body.evaluateFuncs MoreInputs.weighted (Inputs.q 5) (Inputs.q 5) (Inputs.q 18)
    = d_zero /\
  d_ltb (Decay3Body.evaluateFuncs MoreInputs.weighted
           (Inputs.q 5) (Inputs.q 5) (Inputs.q 18)) d_zero = false.
Proof.
  split; [vm_compute; reflexivity|].
  exact (evaluateFuncs_is_not_negative MoreInputs.weighted
           (Inputs.q 5) (Inputs.q 5) (Inputs.q 18) eq_refl).
Defined.


(** ** generate *)

Section more_generate.
Context `{Double D} `{RandomSource D R}.
Implicit Types (d : Decay3Body.t D) (w : Decay3Body.world D R).

Lemma triple_over (values : gmap string D) name12 name13 name23 (a b c : D) :
  dom values ⊆ dom (triple name12 name13 name23 a b c) ->
  assign (assign (assign values name12 a) name13 b) name23 c
    = triple name12 name13 name23 a b c.
Proof.
  intros Hdom. apply map_eq. intros k. unfold triple, assign in *.
  destruct (decide (name23 = k)) as [->|H23]; [by rewrite !lookup_insert_eq|].
  rewrite !(lookup_insert_ne _ name23) by done.
  destruct (decide (name13 = k)) as [->|H13]; [by rewrite !lookup_insert_eq|].
  rewrite !(lookup_insert_ne _ name13) by done.
  destruct (decide (name12 = k)) as [->|H12]; [by rewrite !lookup_insert_eq|].
  rewrite !(lookup_insert_ne _ name12) by done.
  rewrite lookup_empty. apply not_elem_of_dom. intros Hk. apply Hdom in Hk.
  rewrite !dom_insert_L, dom_empty_L in Hk.
  rewrite !elem_of_union, !elem_of_singleton in Hk.
  destruct Hk as [?|[?|[?|Hk]]]; [congruence..|]. by apply not_elem_of_empty in Hk.
Qed.

Lemma dom_triple name12 name13 name23 (a b c a' b' c' : D) :
  dom (triple name12 name13 name23 a b c) = dom (triple name12 name13 name23 a' b' c').
Proof. unfold triple, assign. by rewrite !dom_insert_L. Qed.

Lemma generate_loop_triple d min12 max12 min13 max13 mSqSum
    name12 name13 name23 count values w :
  dom values ⊆ dom (triple name12 name13 name23 d_zero d_zero d_zero) ->
  let point := (Decay3Body.generate_loop d min12 max12 min13 max13 mSqSum
                  name12 name13 name23 count values w).1 in
  point = triple name12 name13 name23 d_zero d_zero d_zero
  \/ (exists mSq12 mSq13 u,
        point = triple name12 name13 name23 mSq12 mSq13
                       (d_sub (d_sub mSqSum mSq12) mSq13)
        /\ d_ltb u (Decay3Body.evaluate3 d mSq12 mSq13
                      (d_sub (d_sub mSqSum mSq12) mSq13)) = true).
Proof.
  revert values w. induction count as [|count IH]; intros values w Hdom; simpl.
  { left. by apply triple_over. }
  destruct (flat (Decay3Body.random w) min12 max12) as [mSq12 r1].
  destruct (flat r1 min13 max13) as [mSq13 r2].
  destruct (flat r2 d_zero (Decay3Body._maxPdf d)) as [u r3].
  assert (Hover : assign (assign (assign values name12 mSq12) name13 mSq13) name23
                         (d_sub (d_sub mSqSum mSq12) mSq13)
                  = triple name12 name13 name23 mSq12 mSq13
                           (d_sub (d_sub mSqSum mSq12) mSq13)).
  { apply triple_over.
    by rewrite (dom_triple _ _ _ mSq12 mSq13 _ d_zero d_zero d_zero). }
  destruct (d_ltb u _) eqn:Hacc.
  - right. exists mSq12, mSq13, u. simpl. by rewrite Hover.
  - apply IH. rewrite Hover.
    by rewrite (dom_triple _ _ _ mSq12 mSq13 _ d_zero d_zero d_zero).
Qed.


(** X4. What [generate] returns holds the three variable names and nothing
    else, and is either all zero or a candidate: two drawn squared masses,
    the third one being the mass sum less the two, for which some draw was
    below the density. Whether the geometry contains the point plays no
    part. *)
Theorem generate_returns_zero_or_accepted_candidate d w :
  let point := (Decay3Body.generate d w).1 in
  let name i := v_name (Decay3Body.getVar d i) in
  let mSqSum := generate_mSqSum (Decay3Body._ps d) in
  point = triple (name 0) (name 1) (name 2) d_zero d_zero d_zero
  \/ (exists mSq12 mSq13 u,
        point = triple (name 0) (name 1) (name 2) mSq12 mSq13
                       (d_sub (d_sub mSqSum mSq12) mSq13)
        /\ d_ltb u (Decay3Body.evaluate3 d mSq12 mSq13
                      (d_sub (d_sub mSqSum mSq12) mSq13)) = true).
Proof.
  cbv zeta. unfold Decay3Body.generate. cbv zeta.
  apply generate_loop_triple. rewrite dom_empty_L. apply empty_subseteq.
Qed.

End more_generate.




(** ** project *)

Section more_project.
Context `{Double D} (binCenter : Z -> Z -> D -> D -> D).

Lemma project_index_cases (d : Decay3Body.t D) (varName : string) :
  (Projection.index d varName = (-1)%Z /\
   forall i, (i < 3)%nat -> varName <> v_name (Decay3Body.getVar d i))
  \/ (exists i, (i < 3)%nat /\ Projection.index d varName = Z.of_nat i /\
                varName = v_name (Decay3Body.getVar d i) /\
                forall j, (i < j < 3)%nat -> varName <> v_name (Decay3Body.getVar d j)).
Proof.
  unfold Projection.index. simpl.
  destruct (decide (varName = v_name (Decay3Body.getVar d 2))) as [E2|N2].
  { right. exists 2%nat. repeat split; [lia|done|]. intros j Hj. lia. }
  destruct (decide (varName = v_name (Decay3Body.getVar d 1))) as [E1|N1].
  { right. exists 1%nat. repeat split; [lia|done|].
    intros j Hj. by assert (j = 2%nat) as -> by lia. }
  destruct (decide (varName = v_name (Decay3Body.getVar d 0))) as [E0|N0].
  { right. exists 0%nat. repeat split; [lia|done|].
    intros j Hj. assert (j = 1 \/ j = 2)%nat as [-> | ->] by lia; done. }
  left. split; [done|]. intros i Hi.
  assert (i = 0 \/ i = 1 \/ i = 2)%nat as [-> | [-> | ->]] by lia; done.
Qed.

(** X6. The projection on a name that is not the name of one of the three
    variables is exactly 1, whatever the point; on a name that several
    variables bear, the projected variable is the last of them. *)
Theorem project_on_a_foreign_name_is_one (d : Decay3Body.t D) (varName : string) (x : D) :
  ((forall i, (i < 3)%nat -> varName <> v_name (Decay3Body.getVar d i)) ->
   Projection.project binCenter d varName x = d_one) /\
  (forall i, (i < 3)%nat -> varName = v_name (Decay3Body.getVar d i) ->
   (forall j, (i < j < 3)%nat -> varName <> v_name (Decay3Body.getVar d j)) ->
   Projection.index d varName = Z.of_nat i).
Proof.
  split.
  - intros Hnone. unfold Projection.project. cbv zeta.
    destruct (project_index_cases d varName) as [[-> _]|(i & Hi & _ & Hname & _)].
    + by case_decide.
    + by destruct (Hnone i Hi).
  - intros i Hi Hname Hlast.
    destruct (project_index_cases d varName) as [[_ Hnone]|(k & Hk & -> & Hkname & Hklast)].
    + by destruct (Hnone i Hi).
    + f_equal. destruct (Nat.lt_trichotomy i k) as [Hlt|[->|Hgt]]; [|done|].
      * by destruct (Hlast k (conj Hlt Hk)).
      * by destruct (Hklast i (conj Hgt Hi)).
Qed.
End more_project.

(** X6 on the decay with three equal daughters and the name [t]. *)
Lemma project_on_a_foreign_name_witness :
  Projection.project MoreInputs.midpoint Inputs.decay_sym "t" (Inputs.q 5) = d_one.
Proof.
  apply (proj1 (project_on_a_foreign_name_is_one MoreInputs.midpoint
                  Inputs.decay_sym "t" (Inputs.q 5))).
  intros i Hi. destruct i as [|[|[|i]]]; [discriminate..|lia].
Defined.

(** ** The composer *)

Lemma string_app_nil_r (s : string) : s +:+ "" = s.
Proof.
  induction s as [|c s IH]; [done|].
  change (String c (s +:+ "") = String c s). by rewrite IH.
Qed.

Lemma string_app_assoc (s1 s2 s3 : string) : (s1 +:+ s2) +:+ s3 = s1 +:+ (s2 +:+ s3).
Proof.
  induction s1 as [|c s1 IH]; [done|].
  change (String c ((s1 +:+ s2) +:+ s3) = String c (s1 +:+ (s2 +:+ s3))).
  by rewrite IH.
Qed.

Section more_pdf.
Context `{Double D}.
Implicit Types (p q r : Pdf.t D) (h : gmap nat (PdfModel.t D)).

(** X7. Appending composites is associative and the default-constructed
    composite is neutral on both sides: the program of a composite does not
    depend on how its parts were grouped. On a name both sides have, the
    entry of the left side is the one kept. *)
Theorem append_pdf_is_a_monoid p q r :
  (Pdf.append_pdf Pdf.empty p).1 = p /\
  (Pdf.append_pdf q Pdf.empty).1 = q /\
  (Pdf.append_pdf r (Pdf.append_pdf q p).1).1
    = (Pdf.append_pdf (Pdf.append_pdf r q).1 p).1 /\
  (forall name, Pdf._varMap (Pdf.append_pdf q p).1 !! name =
     match Pdf._varMap p !! name with
     | Some own => Some own
     | None => Pdf._varMap q !! name
     end).
Proof.
  repeat split.
  - destruct p. unfold Pdf.append_pdf, modify. simpl.
    rewrite !insert_range_entries, !(right_id_L ∅ (∪)), !(right_id_L [] (++)).
    by rewrite string_app_nil_r.
  - destruct q. unfold Pdf.append_pdf, modify. simpl.
    by rewrite !insert_range_entries, !(left_id_L ∅ (∪)).
  - unfold Pdf.append_pdf, modify. simpl.
    rewrite !insert_range_entries, !(assoc_L (∪)), !(assoc_L (++)).
    by rewrite string_app_assoc.
  - intros name. unfold Pdf.append_pdf, modify. simpl.
    rewrite insert_range_entries, lookup_union.
    by destruct (Pdf._varMap p !! name), (Pdf._varMap q !! name).
Qed.

(** X8. Appending a model never replaces a variable or a parameter the
    composite already has under the same name: the composite keeps its own
    entry and takes the entries of the model for the names it lacks.
    Appending a parameter does replace the entry under its name. *)
Theorem append_model_keeps_own_entries h model m p (par : CfitParameter D)
    (Hmodel : h !! model = Some m) :
  (forall name, Pdf._varMap (Pdf.append_model h model p).1 !! name =
     match Pdf._varMap p !! name with
     | Some own => Some own
     | None => PdfModel._varMap m !! name
     end) /\
  (forall name, Pdf._parMap (Pdf.append_model h model p).1 !! name =
     match Pdf._parMap p !! name with
     | Some own => Some own
     | None => PdfModel._parMap m !! name
     end) /\
  Pdf._parMap (Pdf.append_par par p).1 !! p_name par = Some par.
Proof.
  unfold Pdf.append_model, bind. rewrite (deref_Some _ _ _ _ Hmodel). simpl.
  rewrite !insert_range_entries. repeat split.
  - intros name. rewrite lookup_union.
    by destruct (Pdf._varMap p !! name), (PdfModel._varMap m !! name).
  - intros name. rewrite lookup_union.
    by destruct (Pdf._parMap p !! name), (PdfModel._parMap m !! name).
  - unfold assign. apply lookup_insert_eq.
Qed.
End more_pdf.

(** X8 on A(x), to which C(x) is appended. *)
Lemma append_model_keeps_own_entries_witness :
  Pdf._varMap (Pdf.append_model Inputs.models 2 Inputs.pdf_A).1 !! "x"
    = Pdf._varMap Inputs.pdf_A !! "x".
Proof.
  pose proof (proj1 (append_model_keeps_own_entries Inputs.models 2
                       (Inputs.stub ["x"] 5) Inputs.pdf_A (Inputs.par "w" 1)
                       eq_refl) "x") as Hx.
  rewrite Hx. vm_compute. reflexivity.
Defined.

(** ** Evaluation of what the operators build *)

Section more_eval.
Context `{Double D}.
Implicit Types (p q : Pdf.t D) (h : gmap nat (PdfModel.t D)) (s : Pdf.machine D).

(** A step that returns does the same when the composite has more
    parameters. *)
Lemma step_parMap_mono h leaf p q ch s s' :
  Pdf._parMap p ⊆ Pdf._parMap q ->
  Pdf.step h leaf p ch s = Returned s' -> Pdf.step h leaf q ch s = Returned s'.
Proof.
  intros Hsub. unfold Pdf.step. repeat case_decide; try done.
  destruct (Pdf.it_par s) as [|par pars]; [done|].
  destruct (Pdf._parMap p !! p_name par) as [own|] eqn:Hown; [|done].
  by rewrite (lookup_weaken _ _ _ _ Hown Hsub).
Qed.

Lemma run_parMap_mono h leaf p q e s s' :
  Pdf._parMap p ⊆ Pdf._parMap q ->
  Pdf.run h leaf p e s = Returned s' -> Pdf.run h leaf q e s = Returned s'.
Proof.
  intros Hsub. revert s. induction e as [|ch e IH]; intros s; simpl; [done|].
  destruct (Pdf.step h leaf p ch s) as [s1| |] eqn:Hstep; simpl; [|done..].
  rewrite (step_parMap_mono _ _ _ _ _ _ _ Hsub Hstep). simpl. apply IH.
Qed.

Lemma run_append_model_oper h p model m (v w : D) oper :
  PdfCalls.evaluates_to h p v -> h !! model = Some m ->
  PdfCalls.leaf m = Returned w ->
  let p' := (Pdf.append_oper oper (Pdf.append_model h model p).1).1 in
  Pdf.run h PdfCalls.leaf p' (Pdf._expression p') (Pdf.start p') =
    x ← Pdf.operate2 v w oper; Returned (Pdf.mkMachine [] [] [] [] [x]).
Proof.
  intros Hp Hm Hw. unfold Pdf.append_model, bind.
  rewrite (deref_Some _ _ _ _ Hm). cbv zeta. simpl.
  set (p' := Pdf.mk _ _ _ _ _ _ _).
  assert (Hsub : Pdf._parMap p ⊆ Pdf._parMap p').
  { simpl. rewrite insert_range_entries. apply map_union_subseteq_l. }
  pose proof (run_behind _ _ _ _ _ _ [model] [] [] [oper] Hp) as Hb.
  apply (run_parMap_mono _ _ _ p' _ _ _ Hsub) in Hb.
  unfold Pdf.behind, Pdf.start in Hb. simpl in Hb.
  rewrite !(right_id_L [] (++)) in Hb.
  unfold Pdf.start. simpl. rewrite !run_app, Hb. simpl.
  unfold Pdf.step. simpl. rewrite Hm, Hw. simpl.
  destruct (Pdf.operate2 v w oper); done.
Qed.

Lemma evaluate_append_model_oper h p model m (v w : D) oper :
  PdfCalls.evaluates_to h p v -> h !! model = Some m ->
  PdfCalls.leaf m = Returned w ->
  Pdf.evaluate h (Pdf.append_oper oper (Pdf.append_model h model p).1).1
    = Pdf.operate2 v w oper.
Proof.
  intros Hp Hm Hw. unfold Pdf.evaluate.
  change (fun m0 : PdfModel.t D =>
            PdfModel.evaluate m0 (PdfModel._varMap m0) (PdfModel._parMap m0))
    with (@PdfCalls.leaf D).
  rewrite (run_append_model_oper h p model m v w oper Hp Hm Hw).
  destruct (Pdf.operate2 v w oper); done.
Qed.

Lemma append_model_then_oper h model m oper p :
  h !! model = Some m ->
  ((Pdf.append_model h model;; Pdf.append_oper oper) p).1
    = (Pdf.append_oper oper (Pdf.append_model h model p).1).1.
Proof.
  intros Hm. unfold bind at 1. unfold Pdf.append_model, bind.
  by rewrite (deref_Some _ _ _ _ Hm).
Qed.

(** X9. A composite that evaluates to [v], summed with a model that
    evaluates to [w] over the same variable names, evaluates to [v + w];
    multiplied by a model over other names that evaluates to [w], it
    evaluates to [v * w]; and either composite again reads its vectors to
    their ends, so that the next operator composes the same way. *)
Theorem sum_and_product_evaluate_to_sum_and_product h p model m (v w : D)
    (Hp : PdfCalls.evaluates_to h p v) (Hm : h !! model = Some m)
    (Hw : PdfCalls.leaf m = Returned w) :
  (Pdf.varNames p = PdfModel.varNames m ->
   PdfCalls.evaluates_to h (Pdf.add_assign_model h model p).1 (d_add v w) /\
   Pdf.evaluate h (Pdf.add_assign_model h model p).1 = Returned (d_add v w)) /\
  (dom (Pdf._varMap p) ## dom (PdfModel._varMap m) ->
   PdfCalls.evaluates_to h (Pdf.mul_assign_model h model p).1 (d_mul v w) /\
   Pdf.evaluate h (Pdf.mul_assign_model h model p).1 = Returned (d_mul v w)).
Proof.
  split.
  - intros Hnames. rewrite (add_assign_model_unfold _ _ _ _ Hm).
    rewrite decide_False by (by intros ?).
    rewrite (append_model_then_oper _ _ _ _ _ Hm).
    split.
    + unfold PdfCalls.evaluates_to.
      by rewrite (run_append_model_oper h p model m v w _ Hp Hm Hw).
    + by rewrite (evaluate_append_model_oper h p model m v w _ Hp Hm Hw).
  - intros Hdisj. rewrite (mul_assign_model_unfold _ _ _ _ Hm).
    rewrite decide_False
      by (intros Hne; apply Hne; by apply set_intersection_keys_nil).
    rewrite (append_model_then_oper _ _ _ _ _ Hm).
    split.
    + unfold PdfCalls.evaluates_to.
      by rewrite (run_append_model_oper h p model m v w _ Hp Hm Hw).
    + by rewrite (evaluate_append_model_oper h p model m v w _ Hp Hm Hw).
Qed.

(** X10. [append( oper )] takes any operator, but a program in which a
    model is followed by an operator that is not one of the five binary
    ones cannot be evaluated: [evaluate] throws "Parse error: unknown
    binary operation". *)
Theorem appended_unary_operator_fails_at_evaluation h p model m (v w : D) oper
    (Hp : PdfCalls.evaluates_to h p v) (Hm : h !! model = Some m)
    (Hw : PdfCalls.leaf m = Returned w)
    (Hunary : oper ∉ [Operation.plus; Operation.minus; Operation.mult;
                      Operation.div; Operation.pow]) :
  Pdf.evaluate h (Pdf.append_oper oper (Pdf.append_model h model p).1).1
    = Thrown (UnknownBinaryOperatorError oper).
Proof.
  rewrite (evaluate_append_model_oper h p model m v w _ Hp Hm Hw).
  destruct oper; try done; exfalso; apply Hunary;
    repeat (first [by left | right]).
Qed.

(** X11. The default-constructed composite cannot be evaluated ("too many
    values have been supplied", with none on the stack), and scaling it by a
    constant or by a parameter is accepted by the composer and fails at
    evaluation for want of a left operand. *)
Theorem empty_composite_cannot_be_evaluated h (ctnt : D) (par : CfitParameter D) :
  Pdf.evaluate h Pdf.empty = Thrown MalformedExpressionError /\
  (Pdf.mul_assign_ctnt ctnt Pdf.empty).2 = Returned tt /\
  Pdf.evaluate h (Pdf.mul_assign_ctnt ctnt Pdf.empty).1 = Thrown StackUnderflowError /\
  Pdf.evaluate h (Pdf.div_assign_ctnt ctnt Pdf.empty).1 = Thrown StackUnderflowError /\
  Pdf.evaluate h (Pdf.mul_assign_par par Pdf.empty).1 = Thrown StackUnderflowError /\
  Pdf.evaluate h (Pdf.div_assign_par par Pdf.empty).1 = Thrown StackUnderflowError.
Proof.
  repeat split; unfold Pdf.evaluate; simpl; try done;
    unfold Pdf.step; simpl; unfold assign; by rewrite lookup_insert_eq.
Qed.
End more_eval.

Lemma pdf_A_evaluates_to_two :
  PdfCalls.evaluates_to Inputs.models Inputs.pdf_A (Inputs.q 2).
Proof. vm_compute. reflexivity. Qed.

(** X9 on A(x) = 2 times B(y) = 3. *)
Lemma product_evaluates_witness :
  Pdf.evaluate Inputs.models Inputs.product_AB = Returned (Inputs.q 6).
Proof.
  refine (proj2 (proj2 (sum_and_product_evaluate_to_sum_and_product
            Inputs.models Inputs.pdf_A 1 (Inputs.stub ["y"] 3)
            (Inputs.q 2) (Inputs.q 3) pdf_A_evaluates_to_two eq_refl eq_refl) _)).
  apply set_intersection_keys_nil. vm_compute. reflexivity.
Defined.

(** X10 on A(x) followed by B(y) and the operator exp. *)
Lemma appended_unary_operator_witness :
  Pdf.evaluate Inputs.models
    (Pdf.append_oper Operation.exp (Pdf.append_model Inputs.models 1 Inputs.pdf_A).1).1
  = Thrown (UnknownBinaryOperatorError Operation.exp).
Proof.
  refine (appended_unary_operator_fails_at_evaluation
            Inputs.models Inputs.pdf_A 1 (Inputs.stub ["y"] 3)
            (Inputs.q 2) (Inputs.q 3) Operation.exp
            pdf_A_evaluates_to_two eq_refl eq_refl _).
  intros Hin. repeat (apply elem_of_cons in Hin as [Hin|Hin]; [discriminate|]).
  by apply not_elem_of_nil in Hin.
Defined.

(** ** commonVars on what the operators build *)

Section more_commonVars.
Context `{Double D}.
Implicit Types (p q : Pdf.t D) (h : gmap nat (PdfModel.t D)).

Lemma then_append_oper_inv {A} (m : M (Pdf.t D) A) oper p p' :
  (m ;; Pdf.append_oper oper) p = (p', Returned tt) ->
  exists p0, p' = (Pdf.append_oper oper p0).1.
Proof.
  unfold bind. destruct (m p) as [p0 [a| |]]; [|done..].
  intros [= <-]. by exists p0.
Qed.

Lemma compound_ends_with_operator h (c : PdfCall.t D) p p' :
  PdfCalls.compound c = true ->
  PdfCall.exec h c p = (p', Returned tt) ->
  exists oper p0, p' = (Pdf.append_oper oper p0).1.
Proof.
  destruct c as [| | | | | | |a|a| | | | | | | |]; try discriminate; intros _; simpl.
  - unfold Pdf.add_assign_model, bind at 1, Pdf.deref.
    destruct (h !! a); [|done]. unfold bind at 1, get.
    case_decide; [done|]. intros Hret. eexists. by eapply then_append_oper_inv.
  - unfold Pdf.mul_assign_model, bind at 1, Pdf.deref.
    destruct (h !! a); [|done]. unfold bind at 1, get.
    case_decide; [done|]. intros Hret. eexists. by eapply then_append_oper_inv.
  - rewrite add_assign_pdf_unfold. case_decide; [done|].
    intros Hret. eexists. by eapply then_append_oper_inv.
  - rewrite mul_assign_pdf_unfold. case_decide; [done|].
    intros Hret. eexists. by eapply then_append_oper_inv.
  - intros Hret. eexists. by eapply then_append_oper_inv.
  - intros Hret. eexists. by eapply then_append_oper_inv.
  - intros Hret. eexists. by eapply then_append_oper_inv.
  - intros Hret. eexists. by eapply then_append_oper_inv.
  - intros Hret. eexists. by eapply then_append_oper_inv.
  - intros Hret. eexists. by eapply then_append_oper_inv.
Qed.

(** X12. After any compound assignment that returns, be it a sum or a
    product, with a model, a composite, a parameter or a constant,
    [commonVars] returns no name at all or throws: the token of every
    operator is ['b'], which it treats as neither sum nor product. *)
Theorem commonVars_is_empty_after_compound_assignment h (c : PdfCall.t D) p p' names
    (Hcompound : PdfCalls.compound c = true)
    (Hret : PdfCall.exec h c p = (p', Returned tt))
    (Hnames : Pdf.commonVars h p' = Returned names) :
  names = [].
Proof.
  destruct (compound_ends_with_operator h c p p' Hcompound Hret) as (oper & p0 & ->).
  by eapply commonVars_after_oper.
Qed.

(** X13. On a composite made of one model [commonVars] returns the sorted
    variable names of the model; once the composite is scaled by a constant
    it throws "not enough values in the stack" (the token of a constant is
    taken for an operator), and once it is scaled by a parameter it returns
    the empty list. *)
Theorem commonVars_of_one_model h model m (ctnt : D) (par : CfitParameter D)
    (Hm : h !! model = Some m) :
  let p := (Pdf.assign_model h model Pdf.empty).1 in
  Pdf.commonVars h p = Returned (PdfModel.varNames m) /\
  Pdf.commonVars h (Pdf.mul_assign_ctnt ctnt p).1 = Thrown ConvolutionUnderflowError /\
  Pdf.commonVars h (Pdf.div_assign_ctnt ctnt p).1 = Thrown ConvolutionUnderflowError /\
  Pdf.commonVars h (Pdf.mul_assign_par par p).1 = Returned [] /\
  Pdf.commonVars h (Pdf.div_assign_par par p).1 = Returned [].
Proof.
  cbv zeta.
  assert ((Pdf.assign_model h model Pdf.empty).1 =
          Pdf.mk (insert_range ∅ (entries (PdfModel._varMap m)))
                 (insert_range ∅ (entries (PdfModel._parMap m)))
                 [model] [] [] [] "m") as ->.
  { unfold Pdf.assign_model, Pdf.append_model, bind.
    by rewrite (deref_Some _ _ _ _ Hm). }
  repeat split; unfold Pdf.commonVars; simpl; unfold Pdf.cv_step; simpl;
    rewrite ?Hm; simpl; done.
Qed.

(** X14. Whatever public appends and compound assignments are called on a
    default-constructed composite, in whatever order and whether they
    return or throw, the names declared by the models it embeds are keys of
    its own maps (the composites passed as operands having the property
    themselves). *)
Theorem covers_after_any_calls h (cs : list (PdfCall.t D))
    (Hcs : Forall (PdfCall.operand_covers h) cs) :
  PdfCall.covers h (PdfCalls.exec_all h cs Pdf.empty).
Proof.
  unfold PdfCalls.exec_all.
  assert (Hgen : forall p, PdfCall.covers h p ->
            PdfCall.covers h (foldl (fun p c => (PdfCall.exec h c p).1) p cs)).
  { induction Hcs as [|c cs Hc Hcs IH]; intros p Hp; simpl; [done|].
    apply IH. by apply covers_exec. }
  apply Hgen, covers_empty.
Qed.
End more_commonVars.

(** X12 on the product of A(x) and B(y). *)
Lemma commonVars_is_empty_witness :
  exists names, Pdf.commonVars Inputs.models Inputs.product_AB = Returned names
                /\ names = [].
Proof.
  exists [].
  assert (Hret : PdfCall.exec Inputs.models (PdfCall.Mul_assign_model 1) Inputs.pdf_A
                 = (Inputs.product_AB, Returned tt)) by (vm_compute; reflexivity).
  assert (Hnames : Pdf.commonVars Inputs.models Inputs.product_AB = Returned [])
    by (vm_compute; reflexivity).
  split; [exact Hnames|].
  exact (commonVars_is_empty_after_compound_assignment Inputs.models
           (PdfCall.Mul_assign_model 1) Inputs.pdf_A Inputs.product_AB []
           eq_refl Hret Hnames).
Defined.

(** X13 on B(y). *)
Lemma commonVars_of_one_model_witness :
  Pdf.commonVars Inputs.models Inputs.pdf_B = Returned ["y"].
Proof.
  exact (proj1 (commonVars_of_one_model Inputs.models 1 (Inputs.stub ["y"] 3)
                  (Inputs.q 2) (Inputs.par "w" 1) eq_refl)).
Defined.

(** X14 on [p = A; p *= B; p *= 2; p += C], the last of which throws. *)
Lemma covers_after_any_calls_witness :
  PdfCall.covers Inputs.models
    (PdfCalls.exec_all Inputs.models
       [PdfCall.Assign_model 0; PdfCall.Mul_assign_model 1;
        PdfCall.Mul_assign_ctnt (Inputs.q 2); PdfCall.Add_assign_model 2]
       Pdf.empty).
Proof.
  apply covers_after_any_calls. repeat constructor.
Defined.

(** ** The values a model receives from [evaluate( vars )] *)

Section more_slicing.
Context `{Double D}.
Implicit Types (p : Pdf.t D) (h : gmap nat (PdfModel.t D)).







End more_slicing.


(** ** The setters *)

Section propagation.
Context `{Double D}.
Context (G : PdfModel.t D -> PdfModel.t D) (Q : PdfModel.t D -> Prop)
        (body : nat -> M (PdfSet.state D) unit) (p0 : Pdf.t D).
Hypothesis Hbody : forall s model m,
  PdfSet.pdf s = p0 -> PdfSet.models s !! model = Some m -> Q m ->
  body model s = (PdfSet.mkState p0 (<[model := G m]> (PdfSet.models s)), Returned tt).
Hypothesis HQ : forall m, Q m -> Q (G m).
Hypothesis Hidem : forall m, Q m -> G (G m) = G m.

Lemma propagated_nil (ms : gmap nat (PdfModel.t D)) : propagated G [] ms = ms.
Proof.
  apply map_eq. intros model. unfold propagated. rewrite map_lookup_imap.
  destruct (ms !! model); [|done]. cbn [mbind option_bind].
  case_decide as Hin; [by apply elem_of_nil in Hin|done].
Qed.

Lemma propagated_cons model l m (ms : gmap nat (PdfModel.t D)) :
  ms !! model = Some m -> Q m ->
  propagated G l (<[model := G m]> ms) = propagated G (model :: l) ms.
Proof using Hidem.
  intros Hm Hq. apply map_eq. intros model'. unfold propagated.
  rewrite !map_lookup_imap.
  destruct (decide (model = model')) as [<-|Hne].
  - rewrite lookup_insert_eq, Hm. cbn [mbind option_bind].
    rewrite (decide_True (P := model ∈ model :: l)) by left.
    case_decide; [by rewrite Hidem|done].
  - rewrite lookup_insert_ne by done. destruct (ms !! model'); [|done].
    cbn [mbind option_bind]. f_equal.
    destruct (decide (model' ∈ l)) as [Hin|Hin];
      destruct (decide (model' ∈ model :: l)) as [Hin'|Hin']; try done.
    + exfalso. by apply Hin'; right.
    + exfalso. apply elem_of_cons in Hin' as [?|?]; congruence.
Qed.

Lemma for_each_propagates (l : list nat) (s : PdfSet.state D) :
  PdfSet.pdf s = p0 ->
  (forall model, model ∈ l -> exists m, PdfSet.models s !! model = Some m /\ Q m) ->
  for_each l body s = (PdfSet.mkState p0 (propagated G l (PdfSet.models s)), Returned tt).
Proof using Hbody HQ Hidem.
  revert s. induction l as [|model l IH]; intros s Hp Hvalid; simpl.
  { rewrite propagated_nil. destruct s. simpl in Hp. by subst. }
  destruct (Hvalid model) as (m & Hm & Hq); [left|].
  unfold bind. rewrite (Hbody s model m Hp Hm Hq).
  rewrite IH; simpl; [|done|].
  - by rewrite (propagated_cons model l m _ Hm Hq).
  - intros model' Hin. destruct (decide (model = model')) as [<-|Hne].
    + exists (G m). rewrite lookup_insert_eq. auto.
    + rewrite lookup_insert_ne by done. apply Hvalid. by right.
Qed.

Lemma lookup_propagated l (ms : gmap nat (PdfModel.t D)) model :
  propagated G l ms !! model =
    (fun m => if decide (model ∈ l) then G m else m) <$> ms !! model.
Proof.
  unfold propagated. rewrite map_lookup_imap. by destruct (ms !! model).
Qed.
End propagation.

Section setters.
Context `{Double D}.

Lemma state_eta (s : PdfSet.state D) :
  PdfSet.mkState (PdfSet.pdf s) (PdfSet.models s) = s.
Proof. by destruct s. Qed.

Lemma alter_absent {T} (f : T -> T) (m : gmap string T) k :
  m !! k = None -> alter f k m = m.
Proof.
  intros Hk. apply map_eq. intros k'. destruct (decide (k = k')) as [<-|].
  - by rewrite lookup_alter_eq, Hk.
  - by rewrite lookup_alter_ne.
Qed.

Lemma alter_twice {T} (f : T -> T) (m : gmap string T) k :
  (forall x, f (f x) = f x) -> alter f k (alter f k m) = alter f k m.
Proof.
  intros Hf. apply map_eq. intros k'. destruct (decide (k = k')) as [<-|].
  - rewrite !lookup_alter_eq. destruct (m !! k); simpl; [|done]. by rewrite Hf.
  - by rewrite !lookup_alter_ne.
Qed.

Lemma setVar_model_step name (val err : D) (s : PdfSet.state D) model m :
  PdfSet.models s !! model = Some m ->
  (do s <- get;
   match PdfSet.models s !! model with
   | Some m =>
       if count (PdfModel._varMap m) name
       then modify (fun s => PdfSet.mkState (PdfSet.pdf s)
              (<[model := PdfSet.model_set_varMap
                   (alter (PdfSet.Variable_set val err) name (PdfModel._varMap m)) m]>
                 (PdfSet.models s)))
       else ret tt
   | None => undefined
   end) s =
  (PdfSet.mkState (PdfSet.pdf s)
     (<[model := PdfSet.model_set_varMap
          (alter (PdfSet.Variable_set val err) name (PdfModel._varMap m)) m]>
        (PdfSet.models s)), Returned tt).
Proof.
  intros Hm. unfold bind, get. cbn. rewrite Hm.
  destruct (count (PdfModel._varMap m) name) eqn:Hc; [done|].
  unfold ret. f_equal. rewrite alter_absent.
  - destruct m. unfold PdfSet.model_set_varMap. cbn.
    rewrite insert_id by done. by rewrite state_eta.
  - apply eq_None_not_Some. intros Hs. apply count_true in Hs. congruence.
Qed.

(** X16. [setVar] on a name of the composite returns; it stores the value
    and the uncertainty under that name in the composite, and in every
    embedded model that has the name; a model that is not embedded, every
    other entry, the parameters and the densities are left as they were. *)
Theorem setVar_reaches_every_embedded_model (s : PdfSet.state D) name (val err : D) own
    (Hown : Pdf._varMap (PdfSet.pdf s) !! name = Some own)
    (Hvalid : forall model, model ∈ Pdf._pdfs (PdfSet.pdf s) ->
                is_Some (PdfSet.models s !! model)) :
  exists s', PdfSet.setVar name val err s = (s', Returned tt) /\
    PdfSet.pdf s' =
      PdfSet.set_varMap (<[name := mkVariable (v_name own) val err]>
                           (Pdf._varMap (PdfSet.pdf s))) (PdfSet.pdf s) /\
    forall model m, PdfSet.models s !! model = Some m ->
      exists m', PdfSet.models s' !! model = Some m' /\
        PdfModel._parMap m' = PdfModel._parMap m /\
        PdfModel.evaluate m' = PdfModel.evaluate m /\
        PdfModel.evaluate_vars m' = PdfModel.evaluate_vars m /\
        PdfModel._varMap m' =
          if decide (model ∈ Pdf._pdfs (PdfSet.pdf s))
          then alter (PdfSet.Variable_set val err) name (PdfModel._varMap m)
          else PdfModel._varMap m.
Proof.
  unfold PdfSet.setVar. unfold bind at 1. unfold get at 1. cbn beta iota.
  rewrite (proj2 (count_true _ name)) by (by rewrite Hown). cbn [negb].
  unfold bind at 1. unfold modify at 1. cbn beta iota.
  set (G := fun m : PdfModel.t D => PdfSet.model_set_varMap
              (alter (PdfSet.Variable_set val err) name (PdfModel._varMap m)) m).
  erewrite (for_each_propagates G (fun _ => True)); [| | | |reflexivity|].
  - eexists. split; [reflexivity|]. cbn [PdfSet.pdf PdfSet.models]. split.
    + f_equal. apply map_eq. intros k.
      destruct (decide (name = k)) as [<-|Hne].
      * by rewrite lookup_alter_eq, Hown, lookup_insert_eq.
      * by rewrite lookup_alter_ne, lookup_insert_ne.
    + intros model m Hm. rewrite lookup_propagated, Hm. cbn.
      eexists. split; [reflexivity|]. by case_decide.
  - intros s0 model m Hp Hm _. rewrite (setVar_model_step _ _ _ _ _ _ Hm).
    by rewrite Hp.
  - done.
  - intros m _. unfold G, PdfSet.model_set_varMap. cbn. f_equal.
    apply alter_twice. by intros [].
  - cbn. intros model Hin. destruct (Hvalid model Hin) as [m Hm]. eauto.
Qed.

Lemma foldl_alter_lookup {A T} (F : string * A -> T -> T) (l : list (string * A))
    (vm : gmap string T) k :
  NoDup l.*1 ->
  foldl (fun vm kv => alter (F kv) kv.1 vm) vm l !! k =
    match (list_to_map l : gmap string A) !! k with
    | Some a => F (k, a) <$> vm !! k
    | None => vm !! k
    end.
Proof.
  revert vm. induction l as [|[k0 a0] l IH]; intros vm Hnd; [done|].
  apply NoDup_cons in Hnd as [Hk0 Hnd]. cbn [foldl fst].
  rewrite IH by done. rewrite list_to_map_cons.
  destruct (decide (k0 = k)) as [<-|Hne].
  - rewrite lookup_insert_eq, lookup_alter_eq.
    by rewrite (not_elem_of_list_to_map_1 _ _ Hk0).
  - rewrite lookup_insert_ne, lookup_alter_ne by done. done.
Qed.

Lemma foldl_alter_entries {T} (F : string * T -> T -> T) (m : gmap string T) :
  foldl (fun vm kv => alter (F kv) kv.1 vm) m (entries m) =
    map_imap (fun k a => Some (F (k, a) a)) m.
Proof.
  apply map_eq. intros k. rewrite foldl_alter_lookup.
  - rewrite list_to_map_entries, map_lookup_imap. by destruct (m !! k).
  - rewrite entries_fst. apply NoDup_keys.
Qed.

Lemma lookup_assign_in_order {T} (setValue : D -> T -> T) (m : gmap string T)
    (vars : list D) i name x :
  length vars = size m -> keys m !! i = Some name -> vars !! i = Some x ->
  PdfSet.assign_in_order setValue m vars !! name = setValue x <$> m !! name.
Proof.
  intros Hlen Hname Hx. unfold PdfSet.assign_in_order.
  assert (Hfst : (zip (keys m) vars).*1 = keys m).
  { apply fst_zip. rewrite length_keys. lia. }
  rewrite (foldl_alter_lookup (fun kx => setValue kx.2)).
  - rewrite (elem_of_list_to_map_1 _ name x); [done| |].
    + rewrite Hfst. apply NoDup_keys.
    + apply (list_elem_of_lookup_2 _ i). by apply lookup_zip_Some.
  - rewrite Hfst. apply NoDup_keys.
Qed.

Lemma dom_assign_in_order {T} (setValue : D -> T -> T) (m : gmap string T)
    (vars : list D) :
  dom (PdfSet.assign_in_order setValue m vars) = dom m.
Proof.
  unfold PdfSet.assign_in_order. generalize (zip (keys m) vars). intros l.
  revert m. induction l as [|kx l IH]; intros m; [done|].
  cbn [foldl]. by rewrite IH, dom_alter_L.
Qed.

Lemma set_varMap_id (p : Pdf.t D) : PdfSet.set_varMap (Pdf._varMap p) p = p.
Proof. by destruct p. Qed.

Lemma model_set_varMap_id (m : PdfModel.t D) :
  PdfSet.model_set_varMap (PdfModel._varMap m) m = m.
Proof. by destruct m. Qed.

Lemma setVars_entries_loop default (p0 : Pdf.t D) model
    (l : list (string * CfitVariable D)) (s : PdfSet.state D) m :
  PdfSet.pdf s = p0 -> PdfSet.models s !! model = Some m ->
  (forall kv, kv ∈ l -> is_Some (Pdf._varMap p0 !! v_name kv.2)) ->
  for_each l (PdfSet.setVars_entry default model) s =
    (PdfSet.mkState p0
       (<[model := PdfSet.model_set_varMap
            (foldl (fun vm kv =>
                      alter (PdfSet.Variable_setValue
                               (v_value (PdfSet.index default (Pdf._varMap p0)
                                           (v_name kv.2)).2))
                            kv.1 vm)
                   (PdfModel._varMap m) l) m]> (PdfSet.models s)),
     Returned tt).
Proof.
  revert s m. induction l as [|kv l IH]; intros s m Hp Hm Hknown.
  { cbn. rewrite model_set_varMap_id, insert_id by done.
    rewrite <- Hp. by rewrite state_eta. }
  cbn [for_each foldl]. unfold bind at 1.
  destruct (Hknown kv) as [own Hown]; [left|].
  assert (Hindex : PdfSet.index default (Pdf._varMap p0) (v_name kv.2)
                   = (Pdf._varMap p0, own)).
  { unfold PdfSet.index. by rewrite Hown. }
  unfold PdfSet.setVars_entry at 1. unfold bind at 1, get at 1. cbn beta iota.
  rewrite Hp, Hindex, Hm. unfold modify at 1. cbn beta iota.
  rewrite Hp, set_varMap_id.
  erewrite IH; [|reflexivity|apply lookup_insert_eq|].
  - cbn [PdfSet.models PdfSet.model_set_varMap PdfModel._varMap].
    by rewrite insert_insert_eq.
  - intros kv' Hin. apply Hknown. by right.
Qed.

(** X17. [setVars] takes one value per variable of the composite, in the
    order of the names: the variable at position [i] gets [vars[i]]. When
    every variable of an embedded model belongs to the composite, the
    propagation gives it the value the composite now has under its name, and
    adds no entry to the composite. Uncertainties, parameters and models that
    are not embedded stay as they were. *)
Theorem setVars_assigns_by_sorted_names default (s : PdfSet.state D) (vars : list D)
    (Hlen : length vars = size (Pdf._varMap (PdfSet.pdf s)))
    (Hvalid : forall model, model ∈ Pdf._pdfs (PdfSet.pdf s) ->
                is_Some (PdfSet.models s !! model))
    (Hcovers : PdfCall.covers (PdfSet.models s) (PdfSet.pdf s))
    (Hkeyed : forall model m, model ∈ Pdf._pdfs (PdfSet.pdf s) ->
                PdfSet.models s !! model = Some m ->
                keyed_by v_name (PdfModel._varMap m)) :
  exists s', PdfSet.setVars default vars s = (s', Returned tt) /\
    PdfSet.pdf s' = PdfSet.set_varMap (Pdf._varMap (PdfSet.pdf s')) (PdfSet.pdf s) /\
    dom (Pdf._varMap (PdfSet.pdf s')) = dom (Pdf._varMap (PdfSet.pdf s)) /\
    (forall i name x, keys (Pdf._varMap (PdfSet.pdf s)) !! i = Some name ->
       vars !! i = Some x ->
       Pdf._varMap (PdfSet.pdf s') !! name =
         PdfSet.Variable_setValue x <$> Pdf._varMap (PdfSet.pdf s) !! name) /\
    (forall model m, PdfSet.models s !! model = Some m ->
       exists m', PdfSet.models s' !! model = Some m' /\
         PdfModel._parMap m' = PdfModel._parMap m /\
         PdfModel.evaluate m' = PdfModel.evaluate m /\
         PdfModel.evaluate_vars m' = PdfModel.evaluate_vars m /\
         (model ∉ Pdf._pdfs (PdfSet.pdf s) -> m' = m) /\
         (model ∈ Pdf._pdfs (PdfSet.pdf s) -> forall k,
            PdfModel._varMap m' !! k =
              (var ← PdfModel._varMap m !! k;
               own ← Pdf._varMap (PdfSet.pdf s') !! k;
               Some (PdfSet.Variable_setValue (v_value own) var)))).
Proof.
  unfold PdfSet.setVars. unfold bind at 1. unfold get at 1. cbn beta iota.
  rewrite decide_False by (intros Hne; apply Hne; by symmetry).
  unfold bind at 1. unfold modify at 1. cbn beta iota.
  set (vm' := PdfSet.assign_in_order PdfSet.Variable_setValue
                (Pdf._varMap (PdfSet.pdf s)) vars).
  set (p0 := PdfSet.set_varMap vm' (PdfSet.pdf s)).
  set (sync := fun var : CfitVariable D =>
         PdfSet.Variable_setValue
           (v_value (PdfSet.index default vm' (v_name var)).2) var).
  set (G := fun m : PdfModel.t D =>
         PdfSet.model_set_varMap (sync <$> PdfModel._varMap m) m).
  set (Q := fun m : PdfModel.t D =>
         forall k var, PdfModel._varMap m !! k = Some var ->
           v_name var = k /\ is_Some (vm' !! k)).
  assert (Hdom : dom vm' = dom (Pdf._varMap (PdfSet.pdf s)))
    by apply dom_assign_in_order.
  erewrite (for_each_propagates G Q _ p0); [| | | |reflexivity|].
  - eexists. split; [reflexivity|]. cbn [PdfSet.pdf PdfSet.models].
    split; [done|]. split; [done|]. split.
    { intros i name x Hname Hx. by apply (lookup_assign_in_order _ _ _ i). }
    intros model m Hm. rewrite lookup_propagated, Hm. cbn [fmap option_fmap option_map].
    eexists. split; [reflexivity|].
    destruct (decide (model ∈ Pdf._pdfs (PdfSet.pdf s))) as [Hin|Hin].
    + do 3 (split; [done|]). split; [done|]. intros _ k.
      unfold G. cbn [PdfSet.model_set_varMap PdfModel._varMap].
      rewrite lookup_fmap. destruct (PdfModel._varMap m !! k) as [var|] eqn:Hk; [|done].
      cbn. pose proof (Hkeyed model m Hin Hm k var Hk) as Hnm.
      assert (Hsome : is_Some (vm' !! k)).
      { apply elem_of_dom. rewrite Hdom.
        apply (proj1 (Hcovers model m Hin Hm)). by apply elem_of_dom. }
      destruct Hsome as [own Hown]. change (Pdf._varMap p0) with vm'.
      rewrite Hown. cbn. unfold sync, PdfSet.index. by rewrite Hnm, Hown.
    + do 3 (split; [done|]). split; [done|]. by intros ?.
  - intros s0 model m Hp Hm Hq. unfold bind at 1, get at 1. cbn beta iota.
    rewrite Hm. rewrite (setVars_entries_loop default p0 model _ s0 m Hp Hm).
    + do 3 f_equal. unfold G. f_equal.
      rewrite (foldl_alter_entries (fun kv => PdfSet.Variable_setValue
                 (v_value (PdfSet.index default (Pdf._varMap p0) (v_name kv.2)).2))).
      apply map_eq. intros k. rewrite map_lookup_imap, lookup_fmap.
      by destruct (PdfModel._varMap m !! k).
    + intros [k var] Hin. apply elem_of_entries in Hin.
      destruct (Hq k var Hin) as [Hnm Hs]. cbn [snd]. rewrite Hnm. exact Hs.
  - intros m Hq k var Hk. unfold G in Hk.
    cbn [PdfSet.model_set_varMap PdfModel._varMap] in Hk.
    rewrite lookup_fmap in Hk.
    destruct (PdfModel._varMap m !! k) as [var0|] eqn:Hk0; [|done].
    injection Hk as <-. exact (Hq k var0 Hk0).
  - intros m _. unfold G, PdfSet.model_set_varMap.
    cbn [PdfModel._varMap PdfModel._parMap PdfModel.evaluate PdfModel.evaluate_vars].
    f_equal. rewrite <- map_fmap_compose. by apply map_fmap_ext.
  - cbn [PdfSet.models]. intros model Hin.
    destruct (Hvalid model Hin) as [m Hm]. exists m. split; [done|].
    intros k var Hk. split; [by apply (Hkeyed model m Hin Hm)|].
    apply elem_of_dom. rewrite Hdom.
    apply (proj1 (Hcovers model m Hin Hm)). by apply elem_of_dom.
Qed.

Lemma setPar_model_step name (val err : D) (s : PdfSet.state D) model m :
  PdfSet.models s !! model = Some m ->
  (do s <- get;
   match PdfSet.models s !! model with
   | Some m =>
       if count (PdfModel._parMap m) name
       then modify (fun s => PdfSet.mkState (PdfSet.pdf s)
              (<[model := PdfSet.model_set_parMap
                   (alter (PdfSet.Parameter_set val err) name (PdfModel._parMap m)) m]>
                 (PdfSet.models s)))
       else ret tt
   | None => undefined
   end) s =
  (PdfSet.mkState (PdfSet.pdf s)
     (<[model := PdfSet.model_set_parMap
          (alter (PdfSet.Parameter_set val err) name (PdfModel._parMap m)) m]>
        (PdfSet.models s)), Returned tt).
Proof.
  intros Hm. unfold bind, get. cbn. rewrite Hm.
  destruct (count (PdfModel._parMap m) name) eqn:Hc; [done|].
  unfold ret. f_equal. rewrite alter_absent.
  - destruct m. unfold PdfSet.model_set_parMap. cbn.
    rewrite insert_id by done. by rewrite state_eta.
  - apply eq_None_not_Some. intros Hs. apply count_true in Hs. congruence.
Qed.

(** X18. [setPar] on a name of the composite returns; it stores the value
    and the uncertainty under that name in the composite, and in every
    embedded model that has the name; a model that is not embedded, every
    other entry, the variables and the densities are left as they were. *)
Theorem setPar_reaches_every_embedded_model (s : PdfSet.state D) name (val err : D) own
    (Hown : Pdf._parMap (PdfSet.pdf s) !! name = Some own)
    (Hvalid : forall model, model ∈ Pdf._pdfs (PdfSet.pdf s) ->
                is_Some (PdfSet.models s !! model)) :
  exists s', PdfSet.setPar name val err s = (s', Returned tt) /\
    PdfSet.pdf s' =
      PdfSet.set_parMap (<[name := mkParameter (p_name own) val err]>
                           (Pdf._parMap (PdfSet.pdf s))) (PdfSet.pdf s) /\
    forall model m, PdfSet.models s !! model = Some m ->
      exists m', PdfSet.models s' !! model = Some m' /\
        PdfModel._varMap m' = PdfModel._varMap m /\
        PdfModel.evaluate m' = PdfModel.evaluate m /\
        PdfModel.evaluate_vars m' = PdfModel.evaluate_vars m /\
        PdfModel._parMap m' =
          if decide (model ∈ Pdf._pdfs (PdfSet.pdf s))
          then alter (PdfSet.Parameter_set val err) name (PdfModel._parMap m)
          else PdfModel._parMap m.
Proof.
  unfold PdfSet.setPar. unfold bind at 1. unfold get at 1. cbn beta iota.
  rewrite (proj2 (count_true _ name)) by (by rewrite Hown). cbn [negb].
  unfold bind at 1. unfold modify at 1. cbn beta iota.
  set (G := fun m : PdfModel.t D => PdfSet.model_set_parMap
              (alter (PdfSet.Parameter_set val err) name (PdfModel._parMap m)) m).
  erewrite (for_each_propagates G (fun _ => True)); [| | | |reflexivity|].
  - eexists. split; [reflexivity|]. cbn [PdfSet.pdf PdfSet.models]. split.
    + f_equal. apply map_eq. intros k.
      destruct (decide (name = k)) as [<-|Hne].
      * by rewrite lookup_alter_eq, Hown, lookup_insert_eq.
      * by rewrite lookup_alter_ne, lookup_insert_ne.
    + intros model m Hm. rewrite lookup_propagated, Hm. cbn.
      eexists. split; [reflexivity|]. by case_decide.
  - intros s0 model m Hp Hm _. rewrite (setPar_model_step _ _ _ _ _ _ Hm).
    by rewrite Hp.
  - done.
  - intros m _. unfold G, PdfSet.model_set_parMap. cbn. f_equal.
    apply alter_twice. by intros [].
  - cbn. intros model Hin. destruct (Hvalid model Hin) as [m Hm]. eauto.
Qed.

Lemma set_parMap_id (p : Pdf.t D) : PdfSet.set_parMap (Pdf._parMap p) p = p.
Proof. by destruct p. Qed.

Lemma model_set_parMap_id (m : PdfModel.t D) :
  PdfSet.model_set_parMap (PdfModel._parMap m) m = m.
Proof. by destruct m. Qed.

Lemma setPars_entries_loop default (p0 : Pdf.t D) model
    (l : list (string * CfitParameter D)) (s : PdfSet.state D) m :
  PdfSet.pdf s = p0 -> PdfSet.models s !! model = Some m ->
  (forall kv, kv ∈ l -> is_Some (Pdf._parMap p0 !! p_name kv.2)) ->
  for_each l (PdfSet.setPars_entry default model) s =
    (PdfSet.mkState p0
       (<[model := PdfSet.model_set_parMap
            (foldl (fun vm kv =>
                      alter (PdfSet.Parameter_setValue
                               (p_value (PdfSet.index default (Pdf._parMap p0)
                                           (p_name kv.2)).2))
                            kv.1 vm)
                   (PdfModel._parMap m) l) m]> (PdfSet.models s)),
     Returned tt).
Proof.
  revert s m. induction l as [|kv l IH]; intros s m Hp Hm Hknown.
  { cbn. rewrite model_set_parMap_id, insert_id by done.
    rewrite <- Hp. by rewrite state_eta. }
  cbn [for_each foldl]. unfold bind at 1.
  destruct (Hknown kv) as [own Hown]; [left|].
  assert (Hindex : PdfSet.index default (Pdf._parMap p0) (p_name kv.2)
                   = (Pdf._parMap p0, own)).
  { unfold PdfSet.index. by rewrite Hown. }
  unfold PdfSet.setPars_entry at 1. unfold bind at 1, get at 1. cbn beta iota.
  rewrite Hp, Hindex, Hm. unfold modify at 1. cbn beta iota.
  rewrite Hp, set_parMap_id.
  erewrite IH; [|reflexivity|apply lookup_insert_eq|].
  - cbn [PdfSet.models PdfSet.model_set_parMap PdfModel._parMap].
    by rewrite insert_insert_eq.
  - intros kv' Hin. apply Hknown. by right.
Qed.

(** X19. [setPars] takes one value per parameter of the composite, in the
    order of the names: the parameter at position [i] gets [pars[i]]. When
    every parameter of an embedded model belongs to the composite, the
    propagation gives it the value the composite now has under its name, and
    adds no entry to the composite. Uncertainties, variables and models that
    are not embedded stay as they were. *)
Theorem setPars_assigns_by_sorted_names default (s : PdfSet.state D) (pars : list D)
    (Hlen : length pars = size (Pdf._parMap (PdfSet.pdf s)))
    (Hvalid : forall model, model ∈ Pdf._pdfs (PdfSet.pdf s) ->
                is_Some (PdfSet.models s !! model))
    (Hcovers : PdfCall.covers (PdfSet.models s) (PdfSet.pdf s))
    (Hkeyed : forall model m, model ∈ Pdf._pdfs (PdfSet.pdf s) ->
                PdfSet.models s !! model = Some m ->
                keyed_by p_name (PdfModel._parMap m)) :
  exists s', PdfSet.setPars default pars s = (s', Returned tt) /\
    PdfSet.pdf s' = PdfSet.set_parMap (Pdf._parMap (PdfSet.pdf s')) (PdfSet.pdf s) /\
    dom (Pdf._parMap (PdfSet.pdf s')) = dom (Pdf._parMap (PdfSet.pdf s)) /\
    (forall i name x, keys (Pdf._parMap (PdfSet.pdf s)) !! i = Some name ->
       pars !! i = Some x ->
       Pdf._parMap (PdfSet.pdf s') !! name =
         PdfSet.Parameter_setValue x <$> Pdf._parMap (PdfSet.pdf s) !! name) /\
    (forall model m, PdfSet.models s !! model = Some m ->
       exists m', PdfSet.models s' !! model = Some m' /\
         PdfModel._varMap m' = PdfModel._varMap m /\
         PdfModel.evaluate m' = PdfModel.evaluate m /\
         PdfModel.evaluate_vars m' = PdfModel.evaluate_vars m /\
         (model ∉ Pdf._pdfs (PdfSet.pdf s) -> m' = m) /\
         (model ∈ Pdf._pdfs (PdfSet.pdf s) -> forall k,
            PdfModel._parMap m' !! k =
              (par ← PdfModel._parMap m !! k;
               own ← Pdf._parMap (PdfSet.pdf s') !! k;
               Some (PdfSet.Parameter_setValue (p_value own) par)))).
Proof.
  unfold PdfSet.setPars. unfold bind at 1. unfold get at 1. cbn beta iota.
  rewrite decide_False by (intros Hne; apply Hne; by symmetry).
  unfold bind at 1. unfold modify at 1. cbn beta iota.
  set (vm' := PdfSet.assign_in_order PdfSet.Parameter_setValue
                (Pdf._parMap (PdfSet.pdf s)) pars).
  set (p0 := PdfSet.set_parMap vm' (PdfSet.pdf s)).
  set (sync := fun par : CfitParameter D =>
         PdfSet.Parameter_setValue
           (p_value (PdfSet.index default vm' (p_name par)).2) par).
  set (G := fun m : PdfModel.t D =>
         PdfSet.model_set_parMap (sync <$> PdfModel._parMap m) m).
  set (Q := fun m : PdfModel.t D =>
         forall k var, PdfModel._parMap m !! k = Some var ->
           p_name var = k /\ is_Some (vm' !! k)).
  assert (Hdom : dom vm' = dom (Pdf._parMap (PdfSet.pdf s)))
    by apply dom_assign_in_order.
  erewrite (for_each_propagates G Q _ p0); [| | | |reflexivity|].
  - eexists. split; [reflexivity|]. cbn [PdfSet.pdf PdfSet.models].
    split; [done|]. split; [done|]. split.
    { intros i name x Hname Hx. by apply (lookup_assign_in_order _ _ _ i). }
    intros model m Hm. rewrite lookup_propagated, Hm. cbn [fmap option_fmap option_map].
    eexists. split; [reflexivity|].
    destruct (decide (model ∈ Pdf._pdfs (PdfSet.pdf s))) as [Hin|Hin].
    + do 3 (split; [done|]). split; [done|]. intros _ k.
      unfold G. cbn [PdfSet.model_set_parMap PdfModel._parMap].
      rewrite lookup_fmap. destruct (PdfModel._parMap m !! k) as [var|] eqn:Hk; [|done].
      cbn. pose proof (Hkeyed model m Hin Hm k var Hk) as Hnm.
      assert (Hsome : is_Some (vm' !! k)).
      { apply elem_of_dom. rewrite Hdom.
        apply (proj2 (Hcovers model m Hin Hm)). by apply elem_of_dom. }
      destruct Hsome as [own Hown]. change (Pdf._parMap p0) with vm'.
      rewrite Hown. cbn. unfold sync, PdfSet.index. by rewrite Hnm, Hown.
    + do 3 (split; [done|]). split; [done|]. by intros ?.
  - intros s0 model m Hp Hm Hq. unfold bind at 1, get at 1. cbn beta iota.
    rewrite Hm. rewrite (setPars_entries_loop default p0 model _ s0 m Hp Hm).
    + do 3 f_equal. unfold G. f_equal.
      rewrite (foldl_alter_entries (fun kv => PdfSet.Parameter_setValue
                 (p_value (PdfSet.index default (Pdf._parMap p0) (p_name kv.2)).2))).
      apply map_eq. intros k. rewrite map_lookup_imap, lookup_fmap.
      by destruct (PdfModel._parMap m !! k).
    + intros [k var] Hin. apply elem_of_entries in Hin.
      destruct (Hq k var Hin) as [Hnm Hs]. cbn [snd]. rewrite Hnm. exact Hs.
  - intros m Hq k var Hk. unfold G in Hk.
    cbn [PdfSet.model_set_parMap PdfModel._parMap] in Hk.
    rewrite lookup_fmap in Hk.
    destruct (PdfModel._parMap m !! k) as [var0|] eqn:Hk0; [|done].
    injection Hk as <-. exact (Hq k var0 Hk0).
  - intros m _. unfold G, PdfSet.model_set_parMap.
    cbn [PdfModel._parMap PdfModel._varMap PdfModel.evaluate PdfModel.evaluate_vars].
    f_equal. rewrite <- map_fmap_compose. by apply map_fmap_ext.
  - cbn [PdfSet.models]. intros model Hin.
    destruct (Hvalid model Hin) as [m Hm]. exists m. split; [done|].
    intros k var Hk. split; [by apply (Hkeyed model m Hin Hm)|].
    apply elem_of_dom. rewrite Hdom.
    apply (proj2 (Hcovers model m Hin Hm)). by apply elem_of_dom.
Qed.

(** X20. [setVar] and [setPar] on a name the composite does not have throw,
    naming it, and change neither the composite nor any model. *)
Theorem setters_reject_unknown_names (s : PdfSet.state D) name (val err : D)
    (Hvar : Pdf._varMap (PdfSet.pdf s) !! name = None)
    (Hpar : Pdf._parMap (PdfSet.pdf s) !! name = None) :
  PdfSet.setVar name val err s =
    (s, Thrown (PdfError (("Cannot set unexisting variable " +:+ name) +:+ "."))) /\
  PdfSet.setPar name val err s =
    (s, Thrown (PdfError (("Cannot set unexisting parameter " +:+ name) +:+ "."))).
Proof.
  assert (Hcv : count (Pdf._varMap (PdfSet.pdf s)) name = false).
  { destruct (count (Pdf._varMap (PdfSet.pdf s)) name) eqn:Hc; [|done].
    apply count_true in Hc as [? Hc]. congruence. }
  assert (Hcp : count (Pdf._parMap (PdfSet.pdf s)) name = false).
  { destruct (count (Pdf._parMap (PdfSet.pdf s)) name) eqn:Hc; [|done].
    apply count_true in Hc as [? Hc]. congruence. }
  unfold PdfSet.setVar, PdfSet.setPar, bind, get. cbn beta iota.
  rewrite Hcv, Hcp. cbn [negb]. unfold throw.
  unfold PdfSet.UnknownVariable, PdfSet.UnknownParameter.
  by rewrite !string_app_assoc.
Qed.

(** X21. [setVars] and [setPars] given another number of values than the
    composite has variables, or parameters, throw and change nothing. *)
Theorem setters_reject_a_wrong_count default_var default_par (s : PdfSet.state D)
    (vars pars : list D)
    (Hvars : length vars <> size (Pdf._varMap (PdfSet.pdf s)))
    (Hpars : length pars <> size (Pdf._parMap (PdfSet.pdf s))) :
  PdfSet.setVars default_var vars s = (s, Thrown ArgumentCountMismatch) /\
  PdfSet.setPars default_par pars s = (s, Thrown ArgumentCountMismatch).
Proof.
  unfold PdfSet.setVars, PdfSet.setPars, bind, get. cbn beta iota.
  split; (case_decide as Hsize; [done|]); exfalso.
  - apply Hvars. symmetry. by apply dec_stable.
  - apply Hpars. symmetry. by apply dec_stable.
Qed.
End setters.

Lemma composite_handles_valid model :
  model ∈ Pdf._pdfs (PdfSet.pdf MoreInputs.composite) ->
  is_Some (PdfSet.models MoreInputs.composite !! model).
Proof.
  change (Pdf._pdfs (PdfSet.pdf MoreInputs.composite)) with [0; 1]%nat.
  intros Hin. apply elem_of_cons in Hin as [->|Hin]; [by eexists|].
  apply list_elem_of_singleton in Hin as ->. by eexists.
Qed.

Lemma composite_with_par_handles_valid model :
  model ∈ Pdf._pdfs (PdfSet.pdf MoreInputs.composite_with_par) ->
  is_Some (PdfSet.models MoreInputs.composite_with_par !! model).
Proof.
  change (Pdf._pdfs (PdfSet.pdf MoreInputs.composite_with_par)) with [0; 1]%nat.
  intros Hin. apply elem_of_cons in Hin as [->|Hin]; [by eexists|].
  apply list_elem_of_singleton in Hin as ->. by eexists.
Qed.

Lemma covers_composite_with_par :
  PdfCall.covers MoreInputs.par_models (PdfSet.pdf MoreInputs.composite_with_par).
Proof.
  apply (covers_exec MoreInputs.par_models (PdfCall.Mul_assign_model 1) I).
  apply (covers_exec MoreInputs.par_models (PdfCall.Assign_model 0) I).
  apply covers_empty.
Qed.

(** X16 at the product of A(x) and B(y): [setVar( "x", 7, 1 )] reaches A at
    address 0 and leaves C(x) at address 2, which is not embedded, alone. *)
Lemma setVar_reaches_witness :
  exists s', PdfSet.setVar "x" (Inputs.q 7) (Inputs.q 1) MoreInputs.composite
               = (s', Returned tt) /\
    (m ← PdfSet.models s' !! 0%nat; PdfModel._varMap m !! "x")
      = Some (mkVariable "x" (Inputs.q 7) (Inputs.q 1)) /\
    (m ← PdfSet.models s' !! 2%nat; PdfModel._varMap m !! "x")
      = Some (Inputs.var "x").
Proof.
  destruct (setVar_reaches_every_embedded_model MoreInputs.composite "x"
              (Inputs.q 7) (Inputs.q 1) (Inputs.var "x") eq_refl
              composite_handles_valid) as (s' & Hrun & _ & Hmodels).
  exists s'. split; [exact Hrun|].
  destruct (Hmodels 0%nat _ eq_refl) as (m0 & -> & _ & _ & _ & H0).
  destruct (Hmodels 2%nat _ eq_refl) as (m2 & -> & _ & _ & _ & H2).
  cbn [mbind option_bind]. rewrite H0, H2. split; vm_compute; reflexivity.
Defined.

(** X18 at the product of G(x; mu) and B(y): [setPar( "mu", 4, 1 )] reaches
    G at address 0 and leaves the one at address 2 alone. *)
Lemma setPar_reaches_witness :
  exists s', PdfSet.setPar "mu" (Inputs.q 4) (Inputs.q 1) MoreInputs.composite_with_par
               = (s', Returned tt) /\
    (m ← PdfSet.models s' !! 0%nat; PdfModel._parMap m !! "mu")
      = Some (mkParameter "mu" (Inputs.q 4) (Inputs.q 1)) /\
    (m ← PdfSet.models s' !! 2%nat; PdfModel._parMap m !! "mu")
      = Some (Inputs.par "mu" 1).
Proof.
  destruct (setPar_reaches_every_embedded_model MoreInputs.composite_with_par "mu"
              (Inputs.q 4) (Inputs.q 1) (Inputs.par "mu" 1) eq_refl
              composite_with_par_handles_valid) as (s' & Hrun & _ & Hmodels).
  exists s'. split; [exact Hrun|].
  destruct (Hmodels 0%nat _ eq_refl) as (m0 & -> & _ & _ & _ & H0).
  destruct (Hmodels 2%nat _ eq_refl) as (m2 & -> & _ & _ & _ & H2).
  cbn [mbind option_bind]. rewrite H0, H2. split; vm_compute; reflexivity.
Defined.

(** X20 at the product of A(x) and B(y) and the name z. *)
Lemma setters_reject_unknown_names_witness :
  PdfSet.setVar "z" (Inputs.q 7) (Inputs.q 1) MoreInputs.composite
    = (MoreInputs.composite,
       Thrown (PdfError "Cannot set unexisting variable z.")) /\
  PdfSet.setPar "z" (Inputs.q 7) (Inputs.q 1) MoreInputs.composite
    = (MoreInputs.composite,
       Thrown (PdfError "Cannot set unexisting parameter z.")).
Proof.
  exact (setters_reject_unknown_names MoreInputs.composite "z"
           (Inputs.q 7) (Inputs.q 1) eq_refl eq_refl).
Defined.

(** X17 at the product of A(x) and B(y): [setVars( { 10, 20 } )] gives 20 to
    y, in the composite and in B. *)
Lemma setVars_assigns_witness :
  exists s', PdfSet.setVars (Inputs.var "") [Inputs.q 10; Inputs.q 20]
               MoreInputs.composite = (s', Returned tt) /\
    Pdf._varMap (PdfSet.pdf s') !! "y"
      = Some (mkVariable "y" (Inputs.q 20) (Inputs.q 0)) /\
    (m ← PdfSet.models s' !! 1%nat; PdfModel._varMap m !! "y")
      = Some (mkVariable "y" (Inputs.q 20) (Inputs.q 0)).
Proof.
  assert (Hkeyed : forall model m,
            model ∈ Pdf._pdfs (PdfSet.pdf MoreInputs.composite) ->
            PdfSet.models MoreInputs.composite !! model = Some m ->
            keyed_by v_name (PdfModel._varMap m)).
  { change (Pdf._pdfs (PdfSet.pdf MoreInputs.composite)) with [0; 1]%nat.
    intros model m Hin Hm k var Hk.
    apply elem_of_cons in Hin as [->|Hin];
      [|apply list_elem_of_singleton in Hin as ->];
      vm_compute in Hm; injection Hm as <-.
    - change (({[ "x" := Inputs.var "x" ]} : gmap string _) !! k = Some var) in Hk.
      by apply lookup_singleton_Some in Hk as [<- <-].
    - change (({[ "y" := Inputs.var "y" ]} : gmap string _) !! k = Some var) in Hk.
      by apply lookup_singleton_Some in Hk as [<- <-]. }
  destruct (setVars_assigns_by_sorted_names (Inputs.var "") MoreInputs.composite
              [Inputs.q 10; Inputs.q 20] eq_refl composite_handles_valid
              covers_product_AB Hkeyed)
    as (s' & Hrun & _ & _ & Hown & Hmodels).
  exists s'. split; [exact Hrun|].
  pose proof (Hown 1%nat "y" (Inputs.q 20) eq_refl eq_refl) as Hy.
  destruct (Hmodels 1%nat _ eq_refl) as (m1 & -> & _ & _ & _ & _ & H1).
  cbn [mbind option_bind]. rewrite H1, Hy.
  - split; vm_compute; reflexivity.
  - change (Pdf._pdfs (PdfSet.pdf MoreInputs.composite)) with [0; 1]%nat.
    apply elem_of_cons. right. by apply list_elem_of_singleton.
Defined.

(** X19 at the product of G(x; mu) and B(y): [setPars( { 4 } )] gives 4 to
    mu, in the composite and in G. *)
Lemma setPars_assigns_witness :
  exists s', PdfSet.setPars (Inputs.par "" 0) [Inputs.q 4]
               MoreInputs.composite_with_par = (s', Returned tt) /\
    Pdf._parMap (PdfSet.pdf s') !! "mu"
      = Some (mkParameter "mu" (Inputs.q 4) (Inputs.q 0)) /\
    (m ← PdfSet.models s' !! 0%nat; PdfModel._parMap m !! "mu")
      = Some (mkParameter "mu" (Inputs.q 4) (Inputs.q 0)).
Proof.
  assert (Hkeyed : forall model m,
            model ∈ Pdf._pdfs (PdfSet.pdf MoreInputs.composite_with_par) ->
            PdfSet.models MoreInputs.composite_with_par !! model = Some m ->
            keyed_by p_name (PdfModel._parMap m)).
  { change (Pdf._pdfs (PdfSet.pdf MoreInputs.composite_with_par)) with [0; 1]%nat.
    intros model m Hin Hm k par Hk.
    apply elem_of_cons in Hin as [->|Hin];
      [|apply list_elem_of_singleton in Hin as ->];
      vm_compute in Hm; injection Hm as <-.
    - change (({[ "mu" := Inputs.par "mu" 1 ]} : gmap string _) !! k = Some par) in Hk.
      by apply lookup_singleton_Some in Hk as [<- <-].
    - done. }
  destruct (setPars_assigns_by_sorted_names (Inputs.par "" 0)
              MoreInputs.composite_with_par [Inputs.q 4] eq_refl
              composite_with_par_handles_valid covers_composite_with_par Hkeyed)
    as (s' & Hrun & _ & _ & Hown & Hmodels).
  exists s'. split; [exact Hrun|].
  pose proof (Hown 0%nat "mu" (Inputs.q 4) eq_refl eq_refl) as Hmu.
  destruct (Hmodels 0%nat _ eq_refl) as (m0 & -> & _ & _ & _ & _ & H0).
  cbn [mbind option_bind]. rewrite H0, Hmu.
  - split; vm_compute; reflexivity.
  - change (Pdf._pdfs (PdfSet.pdf MoreInputs.composite_with_par)) with [0; 1]%nat.
    apply elem_of_cons. by left.
Defined.

(** X21 at the product of A(x) and B(y), which has two variables and no
    parameter, given no value and one value. *)
Lemma setters_reject_a_wrong_count_witness :
  PdfSet.setVars (Inputs.var "") [] MoreInputs.composite
    = (MoreInputs.composite, Thrown ArgumentCountMismatch) /\
  PdfSet.setPars (Inputs.par "" 0) [Inputs.q 1] MoreInputs.composite
    = (MoreInputs.composite, Thrown ArgumentCountMismatch).
Proof.
  apply (setters_reject_a_wrong_count (Inputs.var "") (Inputs.par "" 0)
           MoreInputs.composite [] [Inputs.q 1]); vm_compute; discriminate.
Defined.

(** ** The map handed to the functions *)

Section more_funcs.
Context `{Double D}.

Lemma evaluateFuncs_body_lookup n12 n13 n23 (x y z : D) acc func k :
  (Decay3Body.evaluateFuncs_body n12 n13 n23 x y z acc func).2 !! k =
    if bool_decide (k = n23) && Function.dependsOn func n23 then Some z
    else if bool_decide (k = n13) && Function.dependsOn func n13 then Some y
    else if bool_decide (k = n12) && Function.dependsOn func n12 then Some x
    else acc.2 !! k.
Proof.
  unfold Decay3Body.evaluateFuncs_body, assign. cbv zeta. cbn [snd].
  destruct (Function.dependsOn func n12), (Function.dependsOn func n13),
    (Function.dependsOn func n23);
    repeat case_bool_decide; subst; cbn [andb];
    rewrite ?lookup_insert_eq; try done;
    repeat (rewrite lookup_insert_ne by done; rewrite ?lookup_insert_eq);
    done.
Qed.

Lemma evaluateFuncs_varMap n12 n13 n23 (x y z : D) funcs acc :
  NoDup [n12; n13; n23] ->
  let varMap := (foldl (Decay3Body.evaluateFuncs_body n12 n13 n23 x y z) acc funcs).2 in
  varMap !! n12 = (if existsb (fun f => Function.dependsOn f n12) funcs
                   then Some x else acc.2 !! n12) /\
  varMap !! n13 = (if existsb (fun f => Function.dependsOn f n13) funcs
                   then Some y else acc.2 !! n13) /\
  varMap !! n23 = (if existsb (fun f => Function.dependsOn f n23) funcs
                   then Some z else acc.2 !! n23).
Proof.
  intros Hnd. apply NoDup_cons in Hnd as [H12 Hnd].
  apply NoDup_cons in Hnd as [H13 _].
  assert (n12 <> n13) by (intros ->; apply H12; left).
  assert (n12 <> n23) by (intros ->; apply H12; right; left).
  assert (n13 <> n23) by (intros ->; apply H13; left).
  cbv zeta. revert acc. induction funcs as [|f funcs IH]; intros acc; [done|].
  cbn [foldl existsb]. destruct (IH (Decay3Body.evaluateFuncs_body
                                       n12 n13 n23 x y z acc f)) as (-> & -> & ->).
  rewrite !evaluateFuncs_body_lookup.
  repeat case_bool_decide; try congruence. cbn [andb].
  destruct (Function.dependsOn f n12), (Function.dependsOn f n13),
    (Function.dependsOn f n23); cbn [orb];
    destruct (existsb _ funcs), (existsb _ funcs), (existsb _ funcs); done.
Qed.

(** X22. [evaluateFuncs] declares the map of values once, before the loop
    over the functions: the last function is handed the value of each of the
    three variables that it or any function before it depends on. The names
    of the three variables are taken to differ. *)
Theorem evaluateFuncs_hands_on_earlier_values d funcs g (mSq12 mSq13 mSq23 : D)
    (Hnames : NoDup [v_name (Decay3Body.getVar d 0); v_name (Decay3Body.getVar d 1);
                     v_name (Decay3Body.getVar d 2)]) :
  exists value varMap,
    Decay3Body.evaluateFuncs (Decay3Body.set_funcs (funcs ++ [g]) d) mSq12 mSq13 mSq23
      = std_max (d_mul value (Function.evaluate g varMap)) d_zero /\
    Decay3Body.evaluateFuncs (Decay3Body.set_funcs funcs d) mSq12 mSq13 mSq23
      = std_max value d_zero /\
    varMap !! v_name (Decay3Body.getVar d 0) =
      (if existsb (fun f => Function.dependsOn f (v_name (Decay3Body.getVar d 0)))
                  (funcs ++ [g])
       then Some mSq12 else None) /\
    varMap !! v_name (Decay3Body.getVar d 1) =
      (if existsb (fun f => Function.dependsOn f (v_name (Decay3Body.getVar d 1)))
                  (funcs ++ [g])
       then Some mSq13 else None) /\
    varMap !! v_name (Decay3Body.getVar d 2) =
      (if existsb (fun f => Function.dependsOn f (v_name (Decay3Body.getVar d 2)))
                  (funcs ++ [g])
       then Some mSq23 else None).
Proof.
  pose proof (evaluateFuncs_varMap _ _ _ mSq12 mSq13 mSq23 (funcs ++ [g])
                (d_one, ∅) Hnames) as Hmap.
  cbv zeta in Hmap. cbn [snd] in Hmap. rewrite !lookup_empty in Hmap.
  rewrite foldl_app in Hmap. cbn [foldl] in Hmap.
  eexists _, _. split; [|split; [|exact Hmap]].
  - unfold Decay3Body.evaluateFuncs. cbv zeta.
    cbn [Decay3Body.set_funcs Decay3Body.getVar Decay3Body._funcs].
    rewrite foldl_app. cbn [foldl].
    unfold Decay3Body.evaluateFuncs_body at 1. cbv zeta. cbn [fst].
    reflexivity.
  - reflexivity.
Qed.
End more_funcs.

(** X22 on the decay multiplied by the efficiency, which depends on mSq12,
    and then by the weight, which does not: the weight is handed mSq12. *)
Lemma evaluateFuncs_hands_on_witness :
  exists value varMap,
    Decay3Body.evaluateFuncs MoreInputs.weighted (Inputs.q 5) (Inputs.q 5) (Inputs.q 18)
      = std_max (d_mul value (Function.evaluate MoreInputs.negative_weight varMap))
                d_zero /\
    Function.dependsOn MoreInputs.negative_weight "mSq12" = false /\
    varMap !! "mSq12" = Some (Inputs.q 5).
Proof.
  assert (Hnames : NoDup ["mSq12"; "mSq13"; "mSq23"]).
  { repeat (apply NoDup_cons; split); try apply NoDup_nil_2;
      rewrite ?elem_of_cons, ?elem_of_nil; intros Hin;
      repeat destruct Hin as [Hin|Hin]; done. }
  destruct (evaluateFuncs_hands_on_earlier_values
              (Inputs.uncached Inputs.equal_daughters) [Inputs.efficiency]
              MoreInputs.negative_weight (Inputs.q 5) (Inputs.q 5) (Inputs.q 18)
              Hnames) as (value & varMap & Hvalue & _ & H12 & _).
  exists value, varMap. split; [exact Hvalue|]. split; [reflexivity|exact H12].
Defined.
